(** * IMAP ingestion backend: a shallow embedding and its verified properties

    The development follows the layout of the backend:
    - [Js]          the fragment of the JavaScript runtime the code relies on
                    (UTF-16 strings, truthiness, [trim], number rendering);
    - [Regex]       the backtracking matcher for the one regular expression
                    of [imapManager.ts];
    - [Utf8], [Base64]  the [Buffer] codecs used by [esClient.ts] and
                    [crypto.ts];
    - [EsClient]    [lib/esClient.ts];
    - [Crypto]      [lib/crypto.ts];
    - [ImapManager] [services/imapManager.ts];
    - [Credentials], [Server], [Startup]  the parts of [server.ts] and
                    [imapManager.ts] around them;
    - [Observations], [Rfc]  readings of effect lists, and the encodings as
                    RFC 3629 and RFC 4648 word them.

    Definitions come first, the theorems about them afterwards. *)

From Stdlib Require Import ZArith Lia Ascii String DecimalString.
From stdpp Require Import gmap strings list.

Open Scope Z_scope.

Ltac Zify.zify_post_hook ::= Z.div_mod_to_equations.

(* ===================================================================== *)
(** ** JavaScript runtime fragment *)
(* ===================================================================== *)

Module Js.

(** A JavaScript string is a sequence of UTF-16 code units. *)
Definition code_unit := Z.
Definition jsstring := list code_unit.

Definition is_code_unit (c : Z) : Prop := 0 <= c < 65536.

(** String literals of the source, written in ASCII. *)
Definition lit (s : string) : jsstring :=
  map (fun a => Z.of_N (N_of_ascii a)) (list_ascii_of_string s).

(** Truthiness of a string: only the empty string is falsy. *)
Definition truthy (s : jsstring) : bool :=
  match s with [] => false | _ :: _ => true end.

(** [a || b] on strings. *)
Definition or_else (a b : jsstring) : jsstring := if truthy a then a else b.

(** ECMAScript LineTerminator: LF, CR, LS, PS. *)
Definition isLineTerminator (c : code_unit) : bool :=
  (c =? 10) || (c =? 13) || (c =? 8232) || (c =? 8233).

(** ECMAScript WhiteSpace: TAB, VT, FF, SP, NBSP, ZWNBSP and category Zs. *)
Definition isWhiteSpace (c : code_unit) : bool :=
  (c =? 9) || (c =? 11) || (c =? 12) || (c =? 32) || (c =? 160)
  || (c =? 65279) || (c =? 5760) || ((8192 <=? c) && (c <=? 8202))
  || (c =? 8239) || (c =? 8287) || (c =? 12288).

(** What [\s] matches and what [String.prototype.trim] strips. *)
Definition isSpace (c : code_unit) : bool := isWhiteSpace c || isLineTerminator c.

Fixpoint drop_while (p : code_unit -> bool) (s : jsstring) : jsstring :=
  match s with
  | c :: rest => if p c then drop_while p rest else s
  | [] => []
  end.

Definition trimStart (s : jsstring) : jsstring := drop_while isSpace s.
Definition trimEnd (s : jsstring) : jsstring := rev (drop_while isSpace (rev s)).
Definition trim (s : jsstring) : jsstring := trimEnd (trimStart s).

(** Rendering of an integral number by a template literal. *)
Definition decimal (n : Z) : jsstring := lit (NilZero.string_of_int (Z.to_int n)).

(** The two ambient sources of a synthetic identifier: [Date.now()], an
    integral number of milliseconds, and the text a template literal renders
    for the result of [Math.random()]. *)
Record Ambient := { now : Z; random : jsstring }.

(** An awaited operation either resolves with a value or rejects. *)
Inductive outcome (A : Type) :=
| Resolved (a : A)
| Rejected.
Arguments Resolved {A} a.
Arguments Rejected {A}.

End Js.

(* ===================================================================== *)
(** ** The regular expression of the message identity resolver *)
(* ===================================================================== *)

Module Regex.
Import Js.

(** Greedy backtracking combinators in continuation style: each tries the
    longest repetition first and gives characters back one at a time when
    the continuation fails, as the ECMAScript matcher does. *)

(** Greedy repetition of a class; the continuation receives the remaining
    input. *)
Fixpoint star {R} (cls : code_unit -> bool) (s : jsstring)
    (k : jsstring -> option R) : option R :=
  match s with
  | c :: rest =>
      if cls c then
        match star cls rest k with
        | Some r => Some r
        | None => k s
        end
      else k s
  | [] => k []
  end.

(** Greedy repetition inside a capture group, with the text consumed so far
    in [acc]. *)
Fixpoint star_capture {R} (cls : code_unit -> bool) (acc s : jsstring)
    (k : jsstring -> jsstring -> option R) : option R :=
  match s with
  | c :: rest =>
      if cls c then
        match star_capture cls (acc ++ [c]) rest k with
        | Some r => Some r
        | None => k acc s
        end
      else k acc s
  | [] => k acc []
  end.

(** One or more of a class inside a capture group: at least one character,
    then as [star_capture]. *)
Definition plus_capture {R} (cls : code_unit -> bool) (s : jsstring)
    (k : jsstring -> jsstring -> option R) : option R :=
  match s with
  | c :: rest => if cls c then star_capture cls [c] rest k else None
  | [] => None
  end.

(** Canonicalisation under the [i] flag without the [u] flag.  The pattern
    holds ASCII characters only, and a non-ASCII code unit never
    canonicalises to an ASCII one, so upper-casing the ASCII letters is all
    that matters here. *)
Definition canonicalize (c : code_unit) : code_unit :=
  if (97 <=? c) && (c <=? 122) then c - 32 else c.

(** A literal matched case-insensitively. *)
Fixpoint literal {R} (pat s : jsstring) (k : jsstring -> option R) : option R :=
  match pat with
  | [] => k s
  | p :: pat' =>
      match s with
      | c :: rest =>
          if canonicalize c =? canonicalize p then literal pat' rest k else None
      | [] => None
      end
  end.

(** [.] without the [s] flag. *)
Definition dot (c : code_unit) : bool := negb (isLineTerminator c).

(** [^] under the [m] flag: at the start of the input or after a line
    terminator.  [prev] is the code unit before the current position. *)
Definition bol (prev : option code_unit) : bool :=
  match prev with None => true | Some c => isLineTerminator c end.

(** [$] under the [m] flag: at the end of the input or before a line
    terminator. *)
Definition eol (s : jsstring) : bool :=
  match s with [] => true | c :: _ => isLineTerminator c end.

(** One attempt at the current position of the pattern: line start, any
    white space, the header name and its colon, any white space, a captured
    non-empty run of [.], line end.  The result is capture group 1. *)
Definition header_at (header : jsstring) (prev : option code_unit)
    (s : jsstring) : option jsstring :=
  if bol prev then
    star isSpace s (fun s1 =>
    literal header s1 (fun s2 =>
    star isSpace s2 (fun s3 =>
    plus_capture dot s3 (fun cap s4 =>
    if eol s4 then Some cap else None))))
  else None.

(** [String.prototype.match] without the [g] flag: the attempt is made at
    every position from the left and the first success wins. *)
Fixpoint search_from (header : jsstring) (prev : option code_unit)
    (s : jsstring) : option jsstring :=
  match header_at header prev s with
  | Some cap => Some cap
  | None =>
      match s with
      | c :: rest => search_from header (Some c) rest
      | [] => None
      end
  end.

Definition match_header (header s : jsstring) : option jsstring :=
  search_from header None s.

End Regex.

(* ===================================================================== *)
(** ** Buffer codecs: UTF-8 *)
(* ===================================================================== *)

Module Utf8.
Import Js.

Definition byte := Z.
Definition is_byte (b : Z) : Prop := 0 <= b < 256.

Definition isHighSurrogate (c : code_unit) : bool := (55296 <=? c) && (c <=? 56319).
Definition isLowSurrogate (c : code_unit) : bool := (56320 <=? c) && (c <=? 57343).

(** U+FFFD, which stands in for whatever cannot be transcoded. *)
Definition replacement : code_unit := 65533.
Definition replacement_bytes : list byte := [239; 191; 189].

Definition encode3 (c : Z) : list byte :=
  [224 + c / 4096; 128 + (c / 64) mod 64; 128 + c mod 64].

Definition encode4 (cp : Z) : list byte :=
  [240 + cp / 262144; 128 + (cp / 4096) mod 64; 128 + (cp / 64) mod 64;
   128 + cp mod 64].

(** [Buffer.from(s, 'utf8')]: a surrogate pair becomes one four-byte
    sequence, an unpaired surrogate becomes U+FFFD. *)
Fixpoint encode (s : jsstring) : list byte :=
  match s with
  | [] => []
  | c :: rest =>
      if c <? 128 then c :: encode rest
      else if c <? 2048 then [192 + c / 64; 128 + c mod 64] ++ encode rest
      else if isHighSurrogate c then
        match rest with
        | d :: rest' =>
            if isLowSurrogate d
            then encode4 (65536 + (c - 55296) * 1024 + (d - 56320)) ++ encode rest'
            else replacement_bytes ++ encode rest
        | [] => replacement_bytes
        end
      else if isLowSurrogate c then replacement_bytes ++ encode rest
      else encode3 c ++ encode rest
  end.

Definition between (lo hi b : Z) : bool := (lo <=? b) && (b <=? hi).
Definition continuation (b : byte) : bool := between 128 191 b.

(** The range allowed for the byte after a three-byte lead. *)
Definition second_of_3 (lead b : byte) : bool :=
  if lead =? 224 then between 160 191 b
  else if lead =? 237 then between 128 159 b
  else continuation b.

(** The range allowed for the byte after a four-byte lead. *)
Definition second_of_4 (lead b : byte) : bool :=
  if lead =? 240 then between 144 191 b
  else if lead =? 244 then between 128 143 b
  else continuation b.

Definition pair_of (cp : Z) : jsstring :=
  [55296 + (cp - 65536) / 1024; 56320 + (cp - 65536) mod 1024].

(** [buf.toString('utf8')]: every maximal ill-formed prefix is replaced by
    U+FFFD and decoding resumes at the offending byte. *)
Fixpoint decode (bs : list byte) : jsstring :=
  match bs with
  | [] => []
  | b :: rest =>
      if b <? 128 then b :: decode rest
      else if between 194 223 b then
        match rest with
        | b1 :: rest1 =>
            if continuation b1
            then ((b - 192) * 64 + (b1 - 128)) :: decode rest1
            else replacement :: decode rest
        | [] => [replacement]
        end
      else if between 224 239 b then
        match rest with
        | b1 :: rest1 =>
            if second_of_3 b b1 then
              match rest1 with
              | b2 :: rest2 =>
                  if continuation b2
                  then ((b - 224) * 4096 + (b1 - 128) * 64 + (b2 - 128)) :: decode rest2
                  else replacement :: decode rest1
              | [] => [replacement]
              end
            else replacement :: decode rest
        | [] => [replacement]
        end
      else if between 240 244 b then
        match rest with
        | b1 :: rest1 =>
            if second_of_4 b b1 then
              match rest1 with
              | b2 :: rest2 =>
                  if continuation b2 then
                    match rest2 with
                    | b3 :: rest3 =>
                        if continuation b3
                        then pair_of ((b - 240) * 262144 + (b1 - 128) * 4096
                                      + (b2 - 128) * 64 + (b3 - 128))
                             ++ decode rest3
                        else replacement :: decode rest2
                    | [] => [replacement]
                    end
                  else replacement :: decode rest1
              | [] => [replacement]
              end
            else replacement :: decode rest
        | [] => [replacement]
        end
      else replacement :: decode rest
  end.

(** A string is well formed when every surrogate is half of a pair. *)
Fixpoint well_formed (s : jsstring) : bool :=
  match s with
  | [] => true
  | c :: rest =>
      if isHighSurrogate c then
        match rest with
        | d :: rest' => isLowSurrogate d && well_formed rest'
        | [] => false
        end
      else negb (isLowSurrogate c) && well_formed rest
  end.

End Utf8.

(* ===================================================================== *)
(** ** Buffer codecs: base64 and base64url *)
(* ===================================================================== *)

Module Base64.
Import Js.

(** The digit alphabets: [url = false] is RFC 4648 section 4, [url = true]
    is section 5. *)
Definition digit_char (url : bool) (i : Z) : code_unit :=
  if i <? 26 then 65 + i
  else if i <? 52 then 97 + (i - 26)
  else if i <? 62 then 48 + (i - 52)
  else if i =? 62 then (if url then 45 else 43)
  else (if url then 95 else 47).

Definition padding : code_unit := 61.

(** [buf.toString('base64')] pads with [=], [buf.toString('base64url')]
    does not. *)
Fixpoint encode_with (url : bool) (bs : list Z) : jsstring :=
  match bs with
  | a :: b :: c :: rest =>
      [digit_char url (a / 4); digit_char url ((a mod 4) * 16 + b / 16);
       digit_char url ((b mod 16) * 4 + c / 64); digit_char url (c mod 64)]
      ++ encode_with url rest
  | [a; b] =>
      [digit_char url (a / 4); digit_char url ((a mod 4) * 16 + b / 16);
       digit_char url ((b mod 16) * 4)]
      ++ (if url then [] else [padding])
  | [a] =>
      [digit_char url (a / 4); digit_char url ((a mod 4) * 16)]
      ++ (if url then [] else [padding; padding])
  | [] => []
  end.

(** The characters of the URL-safe alphabet: letters, digits, hyphen and
    underscore. *)
Definition url_safe (c : code_unit) : bool :=
  ((65 <=? c) && (c <=? 90)) || ((97 <=? c) && (c <=? 122))
  || ((48 <=? c) && (c <=? 57)) || (c =? 45) || (c =? 95).

Definition base64 (bs : list Z) : jsstring := encode_with false bs.
Definition base64url (bs : list Z) : jsstring := encode_with true bs.

(** The value of a digit of either alphabet. *)
Definition digit_value (c : code_unit) : option Z :=
  if (65 <=? c) && (c <=? 90) then Some (c - 65)
  else if (97 <=? c) && (c <=? 122) then Some (c - 97 + 26)
  else if (48 <=? c) && (c <=? 57) then Some (c - 48 + 52)
  else if (c =? 43) || (c =? 45) then Some 62
  else if (c =? 47) || (c =? 95) then Some 63
  else None.

(** The decoder reads every code unit through its low byte. *)
Definition low_byte (c : code_unit) : Z := c mod 256.

(** The digits of a token: reading stops at the first padding character and
    characters of neither alphabet are skipped. *)
Fixpoint digits (s : jsstring) : list Z :=
  match s with
  | [] => []
  | c :: rest =>
      if low_byte c =? padding then []
      else match digit_value (low_byte c) with
           | Some v => v :: digits rest
           | None => digits rest
           end
  end.

Fixpoint bytes_of_digits (ds : list Z) : list Z :=
  match ds with
  | a :: b :: c :: d :: rest =>
      [a * 4 + b / 16; (b mod 16) * 16 + c / 4; (c mod 4) * 64 + d]
      ++ bytes_of_digits rest
  | [a; b; c] => [a * 4 + b / 16; (b mod 16) * 16 + c / 4]
  | [a; b] => [a * 4 + b / 16]
  | _ => []
  end.

(** [Buffer.from(s, 'base64')]. *)
Definition decode (s : jsstring) : list Z := bytes_of_digits (digits s).

End Base64.

(* ===================================================================== *)
(** ** Observable effects *)
(* ===================================================================== *)

(** Every function of the backend is embedded as a function that returns,
    next to its result, the list of effects it performed in order: console
    output, requests to the index, commands on the IMAP connection and
    timers.  What the outside world answers is an argument of the function. *)

Module Effects.
Import Js.

(** [types/email.d.ts] *)
Record EmailDoc := {
  doc_messageId : jsstring;
  doc_accountId : jsstring;
  doc_folder : jsstring;
  doc_from : jsstring;
  doc_to : jsstring;
  doc_subject : jsstring;
  doc_bodyText : jsstring;
  doc_bodyHtml : jsstring;
  doc_receivedAt : Z;
  doc_labels : list jsstring;
  doc_raw : jsstring
}.

(** One constructor per console statement of the source. *)
Inductive LogLine :=
| ErrorCheckingDocExists
| FailedToIndexEmail (id : jsstring)
| IndexingErrorHistorical
| ErrorFetchingMailbox (mailbox : jsstring)
| DuplicateMessageSkipped (messageId : jsstring)
| IndexedNewMessage (messageId : jsstring) (account : Z) (mailbox : jsstring)
| IndexingErrorForNewMessage
| ErrorFetchingNewMessageBySeq
| WorkerAlreadyRunning (account : Z)
| ImapConnected (account : Z)
| CouldNotFetchOrSubscribe (mailbox : jsstring) (account : Z)
| CouldNotListMailboxes
| ImapClientError (account : Z)
| ImapConnectionClosed (account : Z)
| ImapConnectionEnded (account : Z)
| FailedToConnectImap (account : Z)
| ReconnectingIn (account : Z) (delay : Z)
| ErrorLoggingOut
| WorkerStopped (account : Z).

Inductive Effect :=
| Console (line : LogLine)
| EsExists (id : jsstring)
| EsIndex (id : jsstring) (doc : EmailDoc)
| ImapConnect
| ImapLogout
| ImapListMailboxes
| ImapMailboxOpen (mailbox : jsstring) (readOnly : bool)
| ImapSearchSince
| ImapFetchUids (uids : list Z)
| ImapFetchSeq (seqNo : Z)
| SetTimeout (delay : Z).

End Effects.

(* ===================================================================== *)
(** ** lib/esClient.ts *)
(* ===================================================================== *)

Module EsClient.
Import Js Effects.

Definition encodedMessageId (messageId : jsstring) : jsstring :=
  Base64.base64url (Utf8.encode messageId).

(** The template [`${Date.now()}-${Math.random()}`]. *)
Definition placeholder (amb : Ambient) : jsstring :=
  decimal (now amb) ++ lit "-" ++ random amb.

(** Every caller passes the account id as a string. *)
Definition docIdFor (amb : Ambient) (accountId messageId : jsstring) : jsstring :=
  let enc := encodedMessageId (or_else messageId (placeholder amb)) in
  accountId ++ lit "_" ++ enc.

(** What the promise of [esClient.exists] resolves with.  A client that
    wraps its results resolves with a response object whose [body] is the
    answer of the index.  A client that hands its results over bare, as
    [ensureIndex], [indexEmail] and the search handler expect of it, resolves
    with the answer itself, a boolean, which has no property [body]. *)
Inductive ExistsResponse :=
| ResponseWithBody (body : bool)
| BareAnswer (answer : bool).

(** [const { body } = response] followed by [!!body]: a property that is
    absent reads as undefined, which is falsy. *)
Definition bodyOf (response : ExistsResponse) : bool :=
  match response with
  | ResponseWithBody body => body
  | BareAnswer _ => false
  end.

(** [reply] is how the request [esClient.exists] settles.  The result is how
    the promise of [docExists] settles. *)
Definition docExists (amb : Ambient) (reply : outcome ExistsResponse)
    (accountId messageId : jsstring) : outcome bool * list Effect :=
  let id := docIdFor amb accountId messageId in
  match reply with
  | Resolved response => (Resolved (bodyOf response), [EsExists id])
  | Rejected => (Resolved false, [EsExists id; Console ErrorCheckingDocExists])
  end.

(** [reply] is how the request [esClient.index] settles. *)
Definition indexEmail (amb : Ambient) (reply : outcome unit) (doc : EmailDoc)
    : outcome unit * list Effect :=
  let id := docIdFor amb (doc_accountId doc) (doc_messageId doc) in
  match reply with
  | Resolved _ => (Resolved tt, [EsIndex id doc])
  | Rejected => (Rejected, [EsIndex id doc; Console (FailedToIndexEmail id)])
  end.

End EsClient.

(* ===================================================================== *)
(** ** services/mailParser.ts *)
(* ===================================================================== *)

Module MailParser.
Import Js.

(** What [simpleParser] of the mailparser package yields, as far as the
    backend reads it. *)
Record ParsedMail := {
  pm_text : jsstring;
  pm_textAsHtml : jsstring;
  pm_html : jsstring;
  pm_subject : jsstring
}.

(** The object handed on to the worker.  [messageId] is the property the
    identity resolver probes; [parseRawEmail] never sets it. *)
Record Parsed := {
  messageId : option jsstring;
  text : jsstring;
  html : jsstring;
  subject : jsstring
}.

(** [raw] is the fetched source, absent when the caller passed the empty
    string in its place; [reply] is how [simpleParser] settles. *)
Definition parseRawEmail (reply : outcome ParsedMail) (raw : option (list Z))
    : Parsed :=
  match reply with
  | Resolved parsed =>
      {| messageId := None;
         text := or_else (pm_text parsed) (or_else (pm_textAsHtml parsed) []);
         html := or_else (pm_html parsed) [];
         subject := or_else (pm_subject parsed) [] |}
  | Rejected =>
      {| messageId := None;
         text := match raw with Some b => Utf8.decode b | None => [] end;
         html := [];
         subject := [] |}
  end.

End MailParser.

(* ===================================================================== *)
(** ** lib/crypto.ts *)
(* ===================================================================== *)

Module Crypto.
Import Js.

Inductive error :=
| MasterKeyNotSet          (* Error('EMAILS_MASTER_KEY not set in env') *)
| UnableToAuthenticate.    (* what the decipher throws *)

Definition KEY_LEN : nat := 32.

Section Primitives.

(** The primitives of the [crypto] module of the runtime.
    [sha256] is [createHash('sha256').update(_).digest()] on bytes.
    [gcm_seal key iv plain] is the ciphertext and the tag an
    [aes-256-gcm] cipher produces.  [gcm_open key iv tag cipher] is the
    plaintext a decipher returns, or [None] when it throws (a nonce or tag it
    does not accept, or a tag that does not verify). *)
Variable sha256 : list Z -> list Z.
Variable gcm_seal : list Z -> list Z -> list Z -> list Z * list Z.
Variable gcm_open : list Z -> list Z -> list Z -> list Z -> option (list Z).

(** [process.env.EMAILS_MASTER_KEY] when the module was loaded. *)
Variable MASTER_KEY : option jsstring.

Definition getKey : error + list Z :=
  match MASTER_KEY with
  | Some secret =>
      if truthy secret
      then inr (take KEY_LEN (sha256 (Utf8.encode secret)))
      else inl MasterKeyNotSet
  | None => inl MasterKeyNotSet
  end.

(** The key [getKey] returns for a non-empty secret. *)
Definition key_of (secret : jsstring) : list Z :=
  take KEY_LEN (sha256 (Utf8.encode secret)).

(** [iv] is what [crypto.randomBytes(12)] returned. *)
Definition encryptString (iv : list Z) (plain : jsstring) : error + jsstring :=
  match getKey with
  | inl e => inl e
  | inr key =>
      let '(encrypted, tag) := gcm_seal key iv (Utf8.encode plain) in
      inr (Base64.base64 (iv ++ tag ++ encrypted))
  end.

Definition decryptString (ciphertextB64 : jsstring) : error + jsstring :=
  let data := Base64.decode ciphertextB64 in
  let iv := take 12 data in
  let tag := take 16 (drop 12 data) in
  let encrypted := drop 28 data in
  match getKey with
  | inl e => inl e
  | inr key =>
      match gcm_open key iv tag encrypted with
      | Some decrypted => inr (Utf8.decode decrypted)
      | None => inl UnableToAuthenticate
      end
  end.

End Primitives.

End Crypto.

(* ===================================================================== *)
(** ** services/imapManager.ts: the message pipeline *)
(* ===================================================================== *)

Module ImapManager.
Import Js Effects MailParser.

Record AccountRow := {
  id : Z;
  name : jsstring;
  host : jsstring;
  port : Z;
  secure : bool;
  username : jsstring;
  password : jsstring;
  enabled : bool
}.

(** [toString('utf8')] does not throw, so the latin1 branch is never
    taken. *)
Definition rawToText (sourceBuffer : option (list Z)) : jsstring :=
  match sourceBuffer with
  | None => []
  | Some b => Utf8.decode b
  end.

(** The fallback identifier [`<generated-${Date.now()}-${Math.random()}>`]. *)
Definition synthetic (amb : Ambient) : jsstring :=
  lit "<generated-" ++ decimal (now amb) ++ lit "-" ++ random amb ++ lit ">".

(** [a || b] on match results. *)
Definition first_match (a b : option jsstring) : option jsstring :=
  match a with Some _ => a | None => b end.

(** [parsed] is absent when the argument is null or undefined. *)
Definition extractMessageId (amb : Ambient) (parsed : option Parsed)
    (rawText : jsstring) : jsstring :=
  let fromRaw :=
    let m := first_match (Regex.match_header (lit "Message-ID:") rawText)
                         (Regex.match_header (lit "Message-Id:") rawText) in
    match m with
    | Some m1 => if truthy m1 then trim m1 else synthetic amb
    | None => synthetic amb
    end in
  match parsed with
  | Some p =>
      match messageId p with
      | Some mid => if truthy mid then mid else fromRaw
      | None => fromRaw
      end
  | None => fromRaw
  end.

(** The envelope of a fetched message; an absent address list is empty. *)
Record Envelope := {
  env_from : list jsstring;
  env_to : list jsstring;
  env_subject : jsstring
}.

(** [Array.prototype.join]. *)
Fixpoint join (sep : jsstring) (l : list jsstring) : jsstring :=
  match l with
  | [] => []
  | [x] => x
  | x :: rest => x ++ sep ++ join sep rest
  end.

(** One message yielded by [client.fetch], together with what the outside
    world answers while the message is processed: the parser, the clock and
    random source at each synthetic-identifier site, and the index. *)
Record Fetched := {
  source : option (list Z);
  envelope : option Envelope;
  internalDate : option Z;
  parser_reply : outcome ParsedMail;
  amb_resolve : Ambient;
  amb_exists : Ambient;
  exists_reply : outcome EsClient.ExistsResponse;
  date_now : Z;
  amb_index : Ambient;
  index_reply : outcome unit
}.

(** The asynchronous iterator of [client.fetch]: the messages it yields and
    whether it then completes or throws. *)
Record FetchStream := {
  items : list Fetched;
  ending : outcome unit
}.

Definition messageIdOf (msg : Fetched) : jsstring :=
  let raw := source msg in
  let parsed := parseRawEmail (parser_reply msg) raw in
  extractMessageId (amb_resolve msg) (Some parsed) (rawToText raw).

(** The document literal shared by both pipelines. *)
Definition buildDoc (accountId : Z) (mailbox : jsstring) (msg : Fetched) : EmailDoc :=
  let raw := source msg in
  let parsed := parseRawEmail (parser_reply msg) raw in
  let rawText := rawToText raw in
  let addresses (f : Envelope -> list jsstring) :=
    join (lit ", ") (match envelope msg with Some e => f e | None => [] end) in
  {| doc_messageId := messageIdOf msg;
     doc_accountId := decimal accountId;
     doc_folder := mailbox;
     doc_from := addresses env_from;
     doc_to := addresses env_to;
     doc_subject :=
       or_else (subject parsed)
         (or_else (match envelope msg with Some e => env_subject e | None => [] end) []);
     doc_bodyText := or_else (text parsed) rawText;
     doc_bodyHtml := or_else (html parsed) [];
     doc_receivedAt := match internalDate msg with Some d => d | None => date_now msg end;
     doc_labels := [];
     doc_raw := rawText |}.

(** The existence check both pipelines start with: its answer and its
    effects. *)
Definition checkExists (accountId : Z) (msg : Fetched) : bool * list Effect :=
  let '(r, eff) := EsClient.docExists (amb_exists msg) (exists_reply msg)
                     (decimal accountId) (messageIdOf msg) in
  (match r with Resolved b => b | Rejected => false end, eff).

(** The body of the loop of [fetchLast30DaysForMailbox] for one message. *)
Definition backfillMessage (accountId : Z) (mailbox : jsstring) (msg : Fetched)
    : list Effect :=
  let '(exists_, eff) := checkExists accountId msg in
  if exists_ then eff
  else
    let doc := buildDoc accountId mailbox msg in
    let '(r, eff') := EsClient.indexEmail (amb_index msg) (index_reply msg) doc in
    eff ++ eff'
    ++ match r with
       | Resolved _ => []
       | Rejected => [Console IndexingErrorHistorical]
       end.

(** What the connection answers during the backfill of one mailbox and the
    subscription that follows it. *)
Record MailboxScript := {
  open_readonly : outcome unit;
  search_reply : outcome (list Z);
  fetch_stream : FetchStream;
  open_readwrite : outcome unit
}.

Definition fetchLast30DaysForMailbox (script : MailboxScript) (accountId : Z)
    (mailbox : jsstring) : list Effect :=
  let failed := [Console (ErrorFetchingMailbox mailbox)] in
  ImapMailboxOpen mailbox true ::
  match open_readonly script with
  | Rejected => failed
  | Resolved _ =>
      ImapSearchSince ::
      match search_reply script with
      | Rejected => failed
      | Resolved [] => []
      | Resolved uids =>
          ImapFetchUids uids ::
          flat_map (backfillMessage accountId mailbox) (items (fetch_stream script))
          ++ match ending (fetch_stream script) with
             | Resolved _ => []
             | Rejected => failed
             end
      end
  end.

(** The loop of [handleNewMessageInMailbox]: a duplicate ends the whole
    function. *)
Fixpoint newMessages (accountId : Z) (mailbox : jsstring) (msgs : list Fetched)
    : bool * list Effect :=
  match msgs with
  | [] => (false, [])
  | msg :: rest =>
      let '(exists_, eff) := checkExists accountId msg in
      if exists_ then
        (true, eff ++ [Console (DuplicateMessageSkipped (messageIdOf msg))])
      else
        let doc := buildDoc accountId mailbox msg in
        let '(r, eff') := EsClient.indexEmail (amb_index msg) (index_reply msg) doc in
        let logged :=
          match r with
          | Resolved _ => Console (IndexedNewMessage (doc_messageId doc) accountId mailbox)
          | Rejected => Console IndexingErrorForNewMessage
          end in
        let '(returned, eff_rest) := newMessages accountId mailbox rest in
        (returned, eff ++ eff' ++ [logged] ++ eff_rest)
  end.

Definition handleNewMessageInMailbox (stream : FetchStream) (accountId : Z)
    (mailbox : jsstring) (seqNo : Z) : list Effect :=
  let '(returned, eff) := newMessages accountId mailbox (items stream) in
  ImapFetchSeq seqNo :: eff
  ++ (if returned then []
      else match ending stream with
           | Resolved _ => []
           | Rejected => [Console ErrorFetchingNewMessageBySeq]
           end).

(* --------------------------------------------------------------------- *)
(** *** The account worker *)
(* --------------------------------------------------------------------- *)

(** The mailbox listing.  [NoBox] is a null or undefined node; an absent
    name is the empty string and an absent child array is the empty list,
    which the guards of [recurse] treat alike. *)
#[warnings="-register-all"]
Inductive Box :=
| NoBox
| mkBox (name : jsstring) (children : list Box).

(** [recurse] pushes onto the array [mailboxNames] of the enclosing scope;
    here the array is threaded through. *)
Fixpoint recurse (box : Box) (mailboxNames : list jsstring) : list jsstring :=
  match box with
  | NoBox => mailboxNames
  | mkBox name children =>
      let pushed := if truthy name then mailboxNames ++ [name] else mailboxNames in
      fold_left (fun names c => recurse c names) children pushed
  end.

(** The pre-order sequence of the names of a listing, as the specification
    words it: the name of a node, then the sequences of its children in
    their listed order.  A node without a name contributes none. *)
Fixpoint preorder (box : Box) : list jsstring :=
  match box with
  | NoBox => []
  | mkBox name children =>
      (if truthy name then [name] else []) ++ flat_map preorder children
  end.

(** [node] is [tree] itself or lies below one of its children. *)
Inductive occurs_in (node : Box) : Box -> Prop :=
| occurs_here : occurs_in node node
| occurs_below name children c :
    In c children -> occurs_in node c -> occurs_in node (mkBox name children).

(** What the connection answers to one 'exists' listener: the re-opened
    mailbox with its message count (zero when the count is absent), and the
    fetch of the newest message. *)
Record ListenerScript := {
  reopen : outcome Z;
  newest : FetchStream
}.

(** A call of an 'exists' listener.  The listener is an async function: the
    emitter runs it up to its first await, the re-open of the mailbox of its
    closure, and the rest runs in later turns of the event loop.
    [handler_script] is what the call will be answered and [handler_done]
    the number of effects it has performed since that first await. *)
Record Handler := {
  handler_mailbox : jsstring;
  handler_script : ListenerScript;
  handler_done : nat
}.

(** The listeners registered on the [ImapFlow] emitter of a worker, and the
    calls of 'exists' listeners that were started on it.  An 'exists'
    listener is identified by the mailbox name its closure captured; the
    other listeners are all alike and are counted. *)
Record Client := {
  onExists : list jsstring;
  onError : nat;
  onClose : nat;
  onEnd : nat;
  started : list Handler
}.

Record Worker := {
  client : Client;
  account : AccountRow;
  connected : bool;
  reconnectAttempts : Z;
  shuttingDown : bool
}.

Definition newClient : Client :=
  {| onExists := []; onError := 0; onClose := 0; onEnd := 0; started := [] |}.

(** The object literal of [startWorkerForAccount]; an absent
    [shuttingDown] reads as false. *)
Definition newWorker (a : AccountRow) : Worker :=
  {| client := newClient; account := a; connected := false;
     reconnectAttempts := 0; shuttingDown := false |}.

Definition set_client (c : Client) (w : Worker) : Worker :=
  {| client := c; account := account w; connected := connected w;
     reconnectAttempts := reconnectAttempts w; shuttingDown := shuttingDown w |}.
Definition set_connected (b : bool) (w : Worker) : Worker :=
  {| client := client w; account := account w; connected := b;
     reconnectAttempts := reconnectAttempts w; shuttingDown := shuttingDown w |}.
Definition set_reconnectAttempts (n : Z) (w : Worker) : Worker :=
  {| client := client w; account := account w; connected := connected w;
     reconnectAttempts := n; shuttingDown := shuttingDown w |}.
Definition set_shuttingDown (b : bool) (w : Worker) : Worker :=
  {| client := client w; account := account w; connected := connected w;
     reconnectAttempts := reconnectAttempts w; shuttingDown := b |}.

Definition on_exists (m : jsstring) (c : Client) : Client :=
  {| onExists := onExists c ++ [m]; onError := onError c;
     onClose := onClose c; onEnd := onEnd c; started := started c |}.

(** The three [client.on] calls that end a successful connect. *)
Definition on_error_close_end (c : Client) : Client :=
  {| onExists := onExists c; onError := S (onError c);
     onClose := S (onClose c); onEnd := S (onEnd c); started := started c |}.

Definition set_started (hs : list Handler) (c : Client) : Client :=
  {| onExists := onExists c; onError := onError c;
     onClose := onClose c; onEnd := onEnd c; started := hs |}.

Definition accountId (w : Worker) : Z := id (account w).

(** The exponential backoff.  The counter is a JavaScript number; every
    value it takes here is an integer the number type holds exactly, and
    where the power overflows to infinity the minimum is 30000 as well. *)
Definition backoff (attempts : Z) : Z := Z.min 30000 (1000 * 2 ^ attempts).

Definition retryConnect (w : Worker) : Worker * list Effect :=
  if shuttingDown w then (w, [])
  else
    let attempts := reconnectAttempts w + 1 in
    let delay := backoff attempts in
    (set_reconnectAttempts attempts w,
     [Console (ReconnectingIn (accountId w) delay); SetTimeout delay]).

(** What the connection answers after a successful connect: the listing and,
    for the mailbox at each position of the flattened listing, its script. *)
Record Session := {
  listing : outcome Box;
  mailbox_script : nat -> MailboxScript
}.

(** The body of the loop over [mailboxNames] for the mailbox at position
    [i]: backfill, select, subscribe. *)
Definition subscribeMailbox (s : Session) (acct : Z) (i : nat) (m : jsstring)
    (c : Client) : Client * list Effect :=
  let script := mailbox_script s i in
  let backfill := fetchLast30DaysForMailbox script acct m in
  match open_readwrite script with
  | Resolved _ => (on_exists m c, backfill ++ [ImapMailboxOpen m false])
  | Rejected =>
      (c, backfill ++ [ImapMailboxOpen m false;
                       Console (CouldNotFetchOrSubscribe m acct)])
  end.

Fixpoint subscribeAll (s : Session) (acct : Z) (i : nat) (names : list jsstring)
    (c : Client) : Client * list Effect :=
  match names with
  | [] => (c, [])
  | m :: rest =>
      let '(c1, eff1) := subscribeMailbox s acct i m c in
      let '(c2, eff2) := subscribeAll s acct (S i) rest c1 in
      (c2, eff1 ++ eff2)
  end.

(** The mailboxes of a flattened listing, from position [i] on, whose
    read-write open resolves. *)
Fixpoint opened (s : Session) (i : nat) (names : list jsstring) : list jsstring :=
  match names with
  | [] => []
  | m :: rest =>
      match open_readwrite (mailbox_script s i) with
      | Resolved _ => [m]
      | Rejected => []
      end ++ opened s (S i) rest
  end.

(** [connectAndListen] up to its first suspension, [await client.connect()]. *)
Definition connectAndListen (w : Worker) : Worker * list Effect :=
  if shuttingDown w then (w, []) else (w, [ImapConnect]).

(** [connectAndListen] from the moment [client.connect()] settles.  The
    statements after a successful connect neither read the shutting-down
    flag nor schedule anything, so they are run as one step. *)
Definition connectSettled (reply : outcome Session) (w : Worker)
    : Worker * list Effect :=
  match reply with
  | Resolved s =>
      let w1 := set_reconnectAttempts 0 (set_connected true w) in
      let '(c, eff) :=
        match listing s with
        | Resolved boxes =>
            subscribeAll s (accountId w) 0 (recurse boxes []) (client w1)
        | Rejected => (client w1, [Console CouldNotListMailboxes])
        end in
      (set_client (on_error_close_end c) w1,
       Console (ImapConnected (accountId w)) :: ImapListMailboxes :: eff)
  | Rejected =>
      let '(w1, eff) := retryConnect (set_connected false w) in
      (w1, Console (FailedToConnectImap (accountId w)) :: eff)
  end.

(** The callback handed to [setTimeout]. *)
Definition timerFired (w : Worker) : Worker * list Effect :=
  if shuttingDown w then (w, []) else connectAndListen w.

(** One 'close' (resp. 'end') listener. *)
Definition lostListener (line : LogLine) (w : Worker) : Worker * list Effect :=
  let w1 := set_connected false w in
  let '(w2, eff) := if shuttingDown w1 then (w1, []) else retryConnect w1 in
  (w2, Console line :: eff).




(** An emitter calls every listener of the event, in registration order. *)
Fixpoint emit (n : nat) (listener : Worker -> Worker * list Effect) (w : Worker)
    : Worker * list Effect :=
  match n with
  | O => (w, [])
  | S n' =>
      let '(w1, eff1) := listener w in
      let '(w2, eff2) := emit n' listener w1 in
      (w2, eff1 ++ eff2)
  end.

(** An 'exists' listener from the moment its re-open has settled. *)
Definition existsSettled (script : ListenerScript) (acct : Z) (m : jsstring)
    : list Effect :=
  match reopen script with
  | Rejected => []
  | Resolved total =>
      if total <=? 0 then []
      else handleNewMessageInMailbox (newest script) acct m total
  end.

(** All that one call of an 'exists' listener does, in the order of its
    program. *)
Definition existsListener (script : ListenerScript) (acct : Z) (m : jsstring)
    : list Effect :=
  ImapMailboxOpen m false :: existsSettled script acct m.

(** The emitter calls the 'exists' listeners in registration order.  Each
    call issues the re-open of its mailbox and returns to the emitter at
    that await, so every re-open is issued before any call goes on.  [i] is
    the position of the first listener; the calls are returned with their
    effects. *)
Fixpoint emitExists (scripts : nat -> ListenerScript) (i : nat)
    (listeners : list jsstring) : list Handler * list Effect :=
  match listeners with
  | [] => ([], [])
  | m :: rest =>
      let '(calls, eff) := emitExists scripts (S i) rest in
      ({| handler_mailbox := m; handler_script := scripts i; handler_done := 0 |}
         :: calls,
       ImapMailboxOpen m false :: eff)
  end.

(** A turn of the event loop given to the call at position [t] of
    [started].  Between two suspensions a call performs some of the effects
    that remain of its program; here a turn performs the next one, so that
    sequences of turns cover every way in which the calls interleave with
    each other and with the other callbacks.  A call that has run to its end
    has no turn left. *)
Definition existsResumed (t : nat) (w : Worker) : Worker * list Effect :=
  match started (client w) !! t with
  | Some call =>
      match existsSettled (handler_script call) (accountId w) (handler_mailbox call)
              !! handler_done call with
      | Some e =>
          let call' := {| handler_mailbox := handler_mailbox call;
                          handler_script := handler_script call;
                          handler_done := S (handler_done call) |} in
          (set_client (set_started (<[t := call']> (started (client w))) (client w)) w,
           [e])
      | None => (w, [])
      end
  | None => (w, [])
  end.

(** Everything that can run on behalf of a worker once it is created. *)
Inductive Callback :=
| TimerFired
| ConnectSettled (reply : outcome Session)
| CloseEmitted
| EndEmitted
| ErrorEmitted
| ExistsEmitted (scripts : nat -> ListenerScript)
| ExistsResumed (t : nat).

Definition callback (cb : Callback) (w : Worker) : Worker * list Effect :=
  match cb with
  | TimerFired => timerFired w
  | ConnectSettled reply => connectSettled reply w
  | CloseEmitted =>
      emit (onClose (client w)) (lostListener (ImapConnectionClosed (accountId w))) w
  | EndEmitted =>
      emit (onEnd (client w)) (lostListener (ImapConnectionEnded (accountId w))) w
  | ErrorEmitted =>
      emit (onError (client w)) (fun w' => (w', [Console (ImapClientError (accountId w))])) w
  | ExistsEmitted scripts =>
      let '(calls, eff) := emitExists scripts 0 (onExists (client w)) in
      (set_client (set_started (started (client w) ++ calls) (client w)) w, eff)
  | ExistsResumed t => existsResumed t w
  end.

Fixpoint callbacks (cbs : list Callback) (w : Worker) : Worker * list Effect :=
  match cbs with
  | [] => (w, [])
  | cb :: rest =>
      let '(w1, eff1) := callback cb w in
      let '(w2, eff2) := callbacks rest w1 in
      (w2, eff1 ++ eff2)
  end.

(* --------------------------------------------------------------------- *)
(** *** The worker registry *)
(* --------------------------------------------------------------------- *)

(** [workers] is the module-level [Map].  Its values are references to
    worker objects, which the closures of a worker keep using after the
    entry is deleted; [heap] holds the objects, a reference being a position
    in it. *)
Record System := {
  workers : gmap Z nat;
  heap : list Worker
}.

Definition initial : System := {| workers := ∅; heap := [] |}.

(** Effects are recorded with the reference of the worker they belong to. *)
Definition Trace := list (nat * Effect).

(** Run a closure of the worker at reference [r]. *)
Definition on_worker (r : nat) (f : Worker -> Worker * list Effect)
    (sys : System) : System * Trace :=
  match heap sys !! r with
  | Some w =>
      let '(w', eff) := f w in
      ({| workers := workers sys; heap := <[r := w']> (heap sys) |},
       map (pair r) eff)
  | None => (sys, [])
  end.

(** [startWorkerForAccount] up to the first suspension of
    [connectAndListen].  Nothing is awaited between the test of the map and
    its update.  The password is resolved in between; it only determines the
    credentials of the new connection. *)
Definition startWorkerForAccount (a : AccountRow) (sys : System) : System * Trace :=
  match workers sys !! id a with
  | Some r => (sys, [(r, Console (WorkerAlreadyRunning (id a)))])
  | None =>
      let r := length (heap sys) in
      let '(worker, eff) := connectAndListen (newWorker a) in
      ({| workers := <[id a := r]> (workers sys); heap := heap sys ++ [worker] |},
       map (pair r) eff)
  end.

(** [stopWorkerForAccount] up to [await w.client.logout()]. *)
Definition stopRequested (accountId : Z) (sys : System) : System * Trace :=
  match workers sys !! accountId with
  | None => (sys, [])
  | Some r => on_worker r (fun w => (set_shuttingDown true w, [ImapLogout])) sys
  end.

(** [stopWorkerForAccount] from the moment the logout settles; [r] is the
    worker the first half looked up. *)
Definition stopSettled (accountId : Z) (r : nat) (logout : outcome unit)
    (sys : System) : System * Trace :=
  ({| workers := delete accountId (workers sys); heap := heap sys |},
   map (pair r)
     (match logout with
      | Resolved _ => []
      | Rejected => [Console ErrorLoggingOut]
      end ++ [Console (WorkerStopped accountId)])).

(** [stopWorkerForAccount] when nothing else runs while it is suspended. *)
Definition stopWorkerForAccount (accountId : Z) (logout : outcome unit)
    (sys : System) : System * Trace :=
  match workers sys !! accountId with
  | None => (sys, [])
  | Some r =>
      let '(sys1, tr1) := stopRequested accountId sys in
      let '(sys2, tr2) := stopSettled accountId r logout sys1 in
      (sys2, tr1 ++ tr2)
  end.

(** The steps the event loop interleaves. *)
Inductive Event :=
| Start (a : AccountRow)
| StopRequested (accountId : Z)
| StopSettled (accountId : Z) (r : nat) (logout : outcome unit)
| Fire (r : nat) (cb : Callback).

Definition step (e : Event) (sys : System) : System * Trace :=
  match e with
  | Start a => startWorkerForAccount a sys
  | StopRequested accountId => stopRequested accountId sys
  | StopSettled accountId r logout => stopSettled accountId r logout sys
  | Fire r cb => on_worker r (callback cb) sys
  end.

Fixpoint run (es : list Event) (sys : System) : System * Trace :=
  match es with
  | [] => (sys, [])
  | e :: rest =>
      let '(sys1, tr1) := step e sys in
      let '(sys2, tr2) := run rest sys1 in
      (sys2, tr1 ++ tr2)
  end.

(** The delays of the timers set and the connects begun in a trace, for one
    worker. *)
Definition is_reconnect (e : Effect) : bool :=
  match e with
  | SetTimeout _ | ImapConnect => true
  | _ => false
  end.

Definition reconnects_of (r : nat) (tr : Trace) : list Effect :=
  flat_map (fun x => if (fst x =? r)%nat && is_reconnect (snd x) then [snd x] else [])
           tr.

Definition delays (eff : list Effect) : list Z :=
  flat_map (fun e => match e with SetTimeout d => [d] | _ => [] end) eff.

(** Effects among which no timer is set and no connect is begun. *)
Definition quiet (eff : list Effect) : Prop :=
  Forall (fun e => is_reconnect e = false) eff.

(** Every registered reference points at a worker object, and that object
    belongs to the account it is registered under. *)
Definition registered_ok (sys : System) : Prop :=
  forall k r, workers sys !! k = Some r ->
    exists w, heap sys !! r = Some w /\ id (account w) = k.

(** The worker at [r] has its shutting-down flag set. *)
Definition stopped (r : nat) (sys : System) : Prop :=
  exists w, heap sys !! r = Some w /\ shuttingDown w = true.

End ImapManager.

(* ===================================================================== *)
(** ** Concrete inputs used to exercise the statements *)
(* ===================================================================== *)

Module Examples.
Import Js Effects ImapManager.

Definition demo_account : AccountRow :=
  {| id := 7; name := lit "demo"; host := lit "imap.example.org"; port := 993;
     secure := true; username := lit "u"; password := lit "p"; enabled := true |}.

(** A message whose source is [raw], for which the parser fails and the
    index answers [exists_] to the existence check, in the body of a
    response object, and [index] to the upsert. *)
Definition demo_message (raw : jsstring) (exists_ : outcome bool)
    (index : outcome unit) : Fetched :=
  {| source := Some (Utf8.encode raw); envelope := None; internalDate := Some 0;
     parser_reply := Rejected;
     amb_resolve := {| now := 1; random := lit "0.5" |};
     amb_exists := {| now := 2; random := lit "0.5" |};
     exists_reply :=
       match exists_ with
       | Resolved answer => Resolved (EsClient.ResponseWithBody answer)
       | Rejected => Rejected
       end;
     date_now := 3;
     amb_index := {| now := 4; random := lit "0.5" |};
     index_reply := index |}.

(** A mailbox that opens read-only, whose search settles as [search], that
    yields no message, and whose read-write open settles as [rw]. *)
Definition demo_mailbox (search : outcome (list Z)) (rw : outcome unit)
    : MailboxScript :=
  {| open_readonly := Resolved tt; search_reply := search;
     fetch_stream := {| items := []; ending := Resolved tt |};
     open_readwrite := rw |}.

(** A session whose listing is a nameless root with the one mailbox INBOX. *)
Definition demo_session (script : MailboxScript) : Session :=
  {| listing := Resolved (mkBox [] [mkBox (lit "INBOX") []]);
     mailbox_script := fun _ => script |}.

(** A session whose listing holds the two mailboxes INBOX and Sent, with
    the script of each. *)
Definition demo_session_two (inbox sent : MailboxScript) : Session :=
  {| listing := Resolved (mkBox [] [mkBox (lit "INBOX") []; mkBox (lit "Sent") []]);
     mailbox_script := fun i => match i with O => inbox | _ => sent end |}.

(** A mailbox that opens and holds two messages: the upsert of the first
    is rejected, the existence check of the second is rejected, and the
    fetch then fails. *)
Definition demo_inbox : MailboxScript :=
  {| open_readonly := Resolved tt;
     search_reply := Resolved [1; 2];
     fetch_stream :=
       {| items := [demo_message (lit "a") (Resolved false) Rejected;
                    demo_message (lit "b") Rejected (Resolved tt)];
          ending := Rejected |};
     open_readwrite := Resolved tt |}.

(** Every re-open finds [total] messages and the fetch yields nothing. *)
Definition demo_listener (total : Z) : nat -> ListenerScript :=
  fun _ => {| reopen := Resolved total;
              newest := {| items := []; ending := Resolved tt |} |}.

(** A stand-in for the primitives of the runtime, simple enough to compute
    with: the digest is the input cut or zero-padded to 32 bytes, the cipher
    complements every byte, and the tag is the first 16 bytes of the key, zero-padded.
    It offers no security; it serves to run the functions of [Crypto] on
    concrete inputs. *)
Definition demo_sha256 (bs : list Z) : list Z := take 32 (bs ++ repeat 0 32).

Definition demo_tag (key : list Z) : list Z :=
  map (fun b => b mod 256) (take 16 (key ++ repeat 0 16)).

Definition demo_seal (key iv plain : list Z) : list Z * list Z :=
  (map (fun b => 255 - b) plain, demo_tag key).

Definition demo_open (key iv tag cipher : list Z) : option (list Z) :=
  if bool_decide (tag = demo_tag key)
  then Some (map (fun b => 255 - b) cipher)
  else None.

End Examples.

(* ===================================================================== *)
(** ** Credentials on their way from the control plane to the worker *)
(* ===================================================================== *)

Module Credentials.
Import Js Crypto.

Section Primitives.

Variable sha256 : list Z -> list Z.
Variable gcm_seal : list Z -> list Z -> list Z -> list Z * list Z.
Variable gcm_open : list Z -> list Z -> list Z -> list Z -> option (list Z).

(** [process.env.EMAILS_MASTER_KEY], which [crypto.ts] read when it was
    loaded and which the two callers test again. *)
Variable MASTER_KEY : option jsstring.

Definition env_set : bool :=
  match MASTER_KEY with Some secret => truthy secret | None => false end.

(** [server.ts], POST /api/accounts: the value of [passwordToStore]. *)
Definition passwordToStore (iv : list Z) (password : jsstring) : jsstring :=
  if env_set then
    match encryptString sha256 gcm_seal MASTER_KEY iv password with
    | inr token => token
    | inl _ => password
    end
  else password.

(** [imapManager.ts], [startWorkerForAccount]: the value of [passwordPlain]
    handed to the connection, from the stored password of the account. *)
Definition passwordPlain (stored : jsstring) : jsstring :=
  if env_set then
    match decryptString sha256 gcm_open MASTER_KEY stored with
    | inr plain => plain
    | inl _ => stored
    end
  else stored.

End Primitives.

End Credentials.

(* ===================================================================== *)
(** ** server.ts: the pure parts of the request handlers *)
(* ===================================================================== *)

Module Server.
Import Js.

(** [String.prototype.includes] for a one-character needle. *)
Definition includes (needle : code_unit) (s : jsstring) : bool :=
  existsb (fun c => c =? needle) s.

Definition underscore : code_unit := 95.

(** GET /api/emails/:id: the document id that is looked up.  [account] is
    the query parameter, absent or a string. *)
Definition requestedDocId (amb : Ambient) (account : option jsstring)
    (id : jsstring) : jsstring :=
  match account with
  | Some a =>
      if truthy a && negb (includes underscore id)
      then EsClient.docIdFor amb a id
      else id
  | None => id
  end.

(** GET /api/emails: the query parameters, each absent or a string. *)
Record SearchParams := {
  q : option jsstring;
  account : option jsstring;
  folder : option jsstring;
  label : option jsstring;
  fromDate : option jsstring;
  toDate : option jsstring
}.

(** A parameter that passes the test [if (p)]. *)
Definition given (p : option jsstring) : option jsstring :=
  match p with
  | Some s => if truthy s then Some s else None
  | None => None
  end.

Inductive Clause :=
| MultiMatch (query : jsstring)
| TermAccountId (value : jsstring)
| TermFolder (value : jsstring)
| TermLabels (value : jsstring)
| RangeReceivedAt (gte lte : option jsstring).

Inductive Query :=
| BoolMust (must : list Clause)
| MatchAll.

Definition clause_if (p : option jsstring) (mk : jsstring -> Clause) : list Clause :=
  match given p with Some s => [mk s] | None => [] end.

(** The array [must], in the order of the [push] calls. *)
Definition mustClauses (p : SearchParams) : list Clause :=
  clause_if (q p) MultiMatch
  ++ clause_if (account p) TermAccountId
  ++ clause_if (folder p) TermFolder
  ++ clause_if (label p) TermLabels
  ++ match given (fromDate p), given (toDate p) with
     | None, None => []
     | gte, lte => [RangeReceivedAt gte lte]
     end.

Definition buildQuery (p : SearchParams) : Query :=
  match mustClauses p with
  | [] => MatchAll
  | must => BoolMust must
  end.

End Server.

(* ===================================================================== *)
(** ** imapManager.ts: starting every enabled account *)
(* ===================================================================== *)

Module Startup.
Import Js Effects ImapManager.

(** What [prisma.account.findMany({ where: { enabled: true } })] returns for
    the rows of the account table. *)
Definition findEnabled (table : list AccountRow) : list AccountRow :=
  List.filter enabled table.

(** The loop of [startAllWorkers]: every call runs up to the first
    suspension of its worker before the next call is made. *)
Fixpoint startEach (accounts : list AccountRow) (sys : System) : System * Trace :=
  match accounts with
  | [] => (sys, [])
  | a :: rest =>
      let '(sys1, tr1) := startWorkerForAccount a sys in
      let '(sys2, tr2) := startEach rest sys1 in
      (sys2, tr1 ++ tr2)
  end.

Definition startAllWorkers (table : list AccountRow) (sys : System) : System * Trace :=
  startEach (findEnabled table) sys.

End Startup.

(* ===================================================================== *)
(** ** Readings of a list of effects *)
(* ===================================================================== *)

Module Observations.
Import Js Effects ImapManager.

(** The upserts requested, in order: document id and document. *)
Definition index_requests (eff : list Effect) : list (jsstring * EmailDoc) :=
  flat_map (fun e => match e with EsIndex id doc => [(id, doc)] | _ => [] end) eff.

(** The existence checks requested, in order. *)
Definition exists_requests (eff : list Effect) : list jsstring :=
  flat_map (fun e => match e with EsExists id => [id] | _ => [] end) eff.

(** The document id under which the existence of a fetched message is
    checked, and the one under which it is upserted. *)
Definition checkedId (acct : Z) (msg : Fetched) : jsstring :=
  EsClient.docIdFor (amb_exists msg) (decimal acct) (messageIdOf msg).

Definition upsertedId (acct : Z) (m : jsstring) (msg : Fetched) : jsstring :=
  EsClient.docIdFor (amb_index msg) (doc_accountId (buildDoc acct m msg))
    (doc_messageId (buildDoc acct m msg)).

(** What the loop over the mailboxes does for the mailbox [m] at position
    [i] when it skips nothing: the backfill, the read-write open, and the
    warning when that open is rejected. *)
Definition mailboxTurn (s : Session) (acct : Z) (i : nat) (m : jsstring) : list Effect :=
  fetchLast30DaysForMailbox (mailbox_script s i) acct m
  ++ ImapMailboxOpen m false
     :: match open_readwrite (mailbox_script s i) with
        | Resolved _ => []
        | Rejected => [Console (CouldNotFetchOrSubscribe m acct)]
        end.

Fixpoint mailboxTurns (s : Session) (acct : Z) (i : nat) (names : list jsstring)
    : list Effect :=
  match names with
  | [] => []
  | m :: rest => mailboxTurn s acct i m ++ mailboxTurns s acct (S i) rest
  end.
(** The mailbox the connection was last asked to open when the effects
    [eff] have been issued.  A connection serves its commands in the order
    in which they were issued, so a fetch issued next is served with that
    mailbox selected, or with none if that open fails. *)
Definition lastOpened (eff : list Effect) : option jsstring :=
  last (flat_map (fun e => match e with ImapMailboxOpen m _ => [m] | _ => [] end) eff).

(** The re-opens one 'exists' event issues for the listeners [listeners]. *)
Definition reopens (listeners : list jsstring) : list Effect :=
  map (fun m => ImapMailboxOpen m false) listeners.








(** Every timer delay of a trace, whatever worker set it. *)
Definition all_delays (tr : Trace) : list Z := delays (map snd tr).

(** The delays of a list of effects all lie between two and thirty
    seconds. *)
Definition bounded (eff : list Effect) : Prop :=
  Forall (fun d => 2000 <= d <= 30000) (delays eff).

(** No worker object has a negative count of reconnect attempts. *)
Definition counters_ok (sys : System) : Prop :=
  Forall (fun w => 0 <= reconnectAttempts w) (heap sys).

(** No white space at either end. *)
Definition trimmed (s : jsstring) : Prop :=
  s = []
  \/ (exists c rest, s = c :: rest /\ isSpace c = false)
     /\ (exists init d, s = init ++ [d] /\ isSpace d = false).

End Observations.

(* ===================================================================== *)
(** ** The encodings as their standards word them *)
(* ===================================================================== *)

Module Rfc.
Import Js.

(** The Unicode scalar values a string stands for: a surrogate pair is one
    supplementary code point, and a surrogate that is not half of a pair is
    replaced by U+FFFD. *)
Fixpoint scalars (s : jsstring) : list Z :=
  match s with
  | [] => []
  | c :: rest =>
      if (0xD800 <=? c) && (c <=? 0xDBFF) then
        match rest with
        | d :: rest' =>
            if (0xDC00 <=? d) && (d <=? 0xDFFF)
            then (0x10000 + (c - 0xD800) * 0x400 + (d - 0xDC00)) :: scalars rest'
            else 0xFFFD :: scalars rest
        | [] => [0xFFFD]
        end
      else if (0xDC00 <=? c) && (c <=? 0xDFFF) then 0xFFFD :: scalars rest
      else c :: scalars rest
  end.

(** RFC 3629, section 3: the octets of a scalar value, by its range.  The
    bits of the value are distributed over the octets, six to each
    continuation octet, most significant first. *)
Definition octets (u : Z) : list Z :=
  if u <=? 0x7F then [u]
  else if u <=? 0x7FF then
    [Z.lor 0xC0 (Z.shiftr u 6); Z.lor 0x80 (Z.land u 0x3F)]
  else if u <=? 0xFFFF then
    [Z.lor 0xE0 (Z.shiftr u 12); Z.lor 0x80 (Z.land (Z.shiftr u 6) 0x3F);
     Z.lor 0x80 (Z.land u 0x3F)]
  else
    [Z.lor 0xF0 (Z.shiftr u 18); Z.lor 0x80 (Z.land (Z.shiftr u 12) 0x3F);
     Z.lor 0x80 (Z.land (Z.shiftr u 6) 0x3F); Z.lor 0x80 (Z.land u 0x3F)].

Definition utf8 (s : jsstring) : list Z := flat_map octets (scalars s).

(** RFC 4648, section 5, table 2: the URL and filename safe alphabet. *)
Definition alphabet : jsstring :=
  lit "ABCDEFGHIJKLMNOPQRSTUVWXYZabcdefghijklmnopqrstuvwxyz0123456789-_".

Definition letter (v : Z) : code_unit := nth (Z.to_nat v) alphabet 0.

(** RFC 4648, section 4: three octets form a group of 24 bits that is read
    as four values of 6 bits; a last group of one octet is filled up with
    zero bits to two values, one of two octets to three.  Section 3.2: the
    padding is left out. *)
Fixpoint base64url (bs : list Z) : jsstring :=
  match bs with
  | a :: b :: c :: rest =>
      let group := a * 65536 + b * 256 + c in
      [letter (group / 262144); letter (group / 4096 mod 64);
       letter (group / 64 mod 64); letter (group mod 64)]
      ++ base64url rest
  | [a; b] =>
      let group := (a * 256 + b) * 4 in
      [letter (group / 4096); letter (group / 64 mod 64); letter (group mod 64)]
  | [a] =>
      let group := a * 16 in
      [letter (group / 64); letter (group mod 64)]
  | [] => []
  end.

(** The document id as the specification words it: the account id, an
    underscore, and the URL-safe base64 text of the bytes of the message
    id. *)
Definition documentId (accountId messageId : jsstring) : jsstring :=
  accountId ++ lit "_" ++ base64url (utf8 messageId).

End Rfc.

(* ===================================================================== *)
(** * Properties *)
(* ===================================================================== *)

(** ** The Buffer codecs *)

Module CodecFacts.
Import Js Utf8.

(** Decide the integer comparisons of the goal by arithmetic, one at a
    time, and reduce the conditionals they guard. *)
Ltac decide_comparison :=
  match goal with
  | |- context [?a <? ?b] =>
      first [ replace (a <? b) with true by (symmetry; apply Z.ltb_lt; lia)
            | replace (a <? b) with false by (symmetry; apply Z.ltb_ge; lia) ]
  | |- context [?a <=? ?b] =>
      first [ replace (a <=? b) with true by (symmetry; apply Z.leb_le; lia)
            | replace (a <=? b) with false by (symmetry; apply Z.leb_gt; lia) ]
  | |- context [?a =? ?b] =>
      first [ replace (a =? b) with true by (symmetry; apply Z.eqb_eq; lia)
            | replace (a =? b) with false by (symmetry; apply Z.eqb_neq; lia) ]
  end.

Ltac comparisons := repeat (decide_comparison; cbn [andb orb negb]).

Lemma digit_value_digit_char (url : bool) (i : Z) :
  0 <= i < 64 ->
  Base64.digit_value (Base64.digit_char url i) = Some i
  /\ (Base64.digit_char url i =? Base64.padding) = false.
Proof.
  intros Hi. unfold Base64.digit_char, Base64.digit_value, Base64.padding.
  destruct (Z.ltb_spec i 26).
  { destruct (Z.leb_spec 65 (65 + i)); [| lia].
    destruct (Z.leb_spec (65 + i) 90); [| lia]. cbn [andb].
    split; [f_equal; lia | apply Z.eqb_neq; lia]. }
  destruct (Z.ltb_spec i 52).
  { destruct (Z.leb_spec 65 (97 + (i - 26))); [| lia].
    destruct (Z.leb_spec (97 + (i - 26)) 90); [lia |]. cbn [andb].
    destruct (Z.leb_spec 97 (97 + (i - 26))); [| lia].
    destruct (Z.leb_spec (97 + (i - 26)) 122); [| lia]. cbn [andb].
    split; [f_equal; lia | apply Z.eqb_neq; lia]. }
  destruct (Z.ltb_spec i 62).
  { destruct (Z.leb_spec 65 (48 + (i - 52))); [lia |]. cbn [andb].
    destruct (Z.leb_spec 97 (48 + (i - 52))); [lia |]. cbn [andb].
    destruct (Z.leb_spec 48 (48 + (i - 52))); [| lia].
    destruct (Z.leb_spec (48 + (i - 52)) 57); [| lia]. cbn [andb].
    split; [f_equal; lia | apply Z.eqb_neq; lia]. }
  destruct (Z.eqb_spec i 62) as [->|Hne].
  { destruct url; split; reflexivity. }
  assert (i = 63) as -> by lia.
  destruct url; split; reflexivity.
Qed.

Lemma low_byte_digit_char (url : bool) (i : Z) :
  0 <= i < 64 -> Base64.low_byte (Base64.digit_char url i) = Base64.digit_char url i.
Proof.
  intros Hi. unfold Base64.low_byte. apply Z.mod_small. unfold Base64.digit_char.
  destruct (Z.ltb_spec i 26); [lia |].
  destruct (Z.ltb_spec i 52); [lia |].
  destruct (Z.ltb_spec i 62); [lia |].
  destruct (i =? 62), url; lia.
Qed.

Lemma digits_digit_char (url : bool) (i : Z) (rest : jsstring) :
  0 <= i < 64 ->
  Base64.digits (Base64.digit_char url i :: rest) = i :: Base64.digits rest.
Proof.
  intros Hi. destruct (digit_value_digit_char url i Hi) as [Hv Hp].
  cbn [Base64.digits]. rewrite (low_byte_digit_char url i Hi), Hp, Hv. reflexivity.
Qed.

Lemma digits_padding (rest : jsstring) : Base64.digits (Base64.padding :: rest) = [].
Proof. reflexivity. Qed.

(** Induction on a list three elements at a time. *)
Lemma list_ind3 {A} (P : list A -> Prop) :
  P [] -> (forall a, P [a]) -> (forall a b, P [a; b]) ->
  (forall a b c l, P l -> P (a :: b :: c :: l)) ->
  forall l, P l.
Proof.
  intros H0 H1 H2 H3. fix IH 1. intros [|a [|b [|c l]]].
  - exact H0.
  - apply H1.
  - apply H2.
  - apply H3. apply IH.
Qed.

(** Decoding inverts the padded encoding on bytes. *)
Lemma base64_decode_encode (bs : list Z) :
  Forall is_byte bs -> Base64.decode (Base64.base64 bs) = bs.
Proof.
  unfold Base64.decode, Base64.base64, is_byte.
  induction bs as [|a|a b|a b c l IH] using list_ind3; intros Hb.
  - reflexivity.
  - apply Forall_cons_1 in Hb as [Ha _].
    cbn [Base64.encode_with app].
    rewrite !digits_digit_char by lia. rewrite digits_padding.
    cbn [Base64.bytes_of_digits]. f_equal. lia.
  - apply Forall_cons_1 in Hb as [Ha Hb]. apply Forall_cons_1 in Hb as [Hb _].
    cbn [Base64.encode_with app].
    rewrite !digits_digit_char by lia. rewrite digits_padding.
    cbn [Base64.bytes_of_digits]. f_equal; [lia |]. f_equal. lia.
  - apply Forall_cons_1 in Hb as [Ha Hb]. apply Forall_cons_1 in Hb as [Hb Hc].
    apply Forall_cons_1 in Hc as [Hc Hl].
    cbn [Base64.encode_with app].
    rewrite !digits_digit_char by lia.
    cbn [Base64.bytes_of_digits app]. rewrite (IH Hl).
    f_equal; [lia |]. f_equal; [lia |]. f_equal. lia.
Qed.

Lemma digit_char_url_safe (i : Z) :
  0 <= i < 64 -> Base64.url_safe (Base64.digit_char true i) = true.
Proof.
  intros Hi. unfold Base64.digit_char, Base64.url_safe.
  assert (i < 26 \/ 26 <= i < 52 \/ 52 <= i < 62 \/ i = 62 \/ i = 63)
    as [H|[H|[H|[H|H]]]] by lia; comparisons; reflexivity.
Qed.

(** The unpadded encoding of bytes stays within the URL-safe alphabet. *)
Lemma base64url_url_safe (bs : list Z) :
  Forall is_byte bs ->
  Forall (fun c => Base64.url_safe c = true) (Base64.base64url bs).
Proof.
  unfold Base64.base64url, is_byte.
  induction bs as [|a|a b|a b c l IH] using list_ind3; intros Hb;
    cbn [Base64.encode_with app].
  - constructor.
  - apply Forall_cons_1 in Hb as [Ha _].
    repeat (constructor; [apply digit_char_url_safe; lia |]). constructor.
  - apply Forall_cons_1 in Hb as [Ha Hb]. apply Forall_cons_1 in Hb as [Hb _].
    repeat (constructor; [apply digit_char_url_safe; lia |]). constructor.
  - apply Forall_cons_1 in Hb as [Ha Hb]. apply Forall_cons_1 in Hb as [Hb Hc].
    apply Forall_cons_1 in Hc as [Hc Hl].
    repeat (constructor; [apply digit_char_url_safe; lia |]). exact (IH Hl).
Qed.







(** *** UTF-8 *)

Ltac decode_step :=
  cbn [decode app];
  repeat (progress (unfold continuation, second_of_3, second_of_4, between;
                    comparisons)).

Lemma decode_1 (c : Z) (bs : list Z) :
  0 <= c < 128 -> decode (c :: bs) = c :: decode bs.
Proof. intros Hc. decode_step. reflexivity. Qed.

Lemma decode_2 (c : Z) (bs : list Z) :
  128 <= c < 2048 ->
  decode ([192 + c / 64; 128 + c mod 64] ++ bs) = c :: decode bs.
Proof. intros Hc. decode_step. f_equal. lia. Qed.

Lemma decode_3 (c : Z) (bs : list Z) :
  2048 <= c < 65536 -> isHighSurrogate c = false -> isLowSurrogate c = false ->
  decode (encode3 c ++ bs) = c :: decode bs.
Proof.
  unfold isHighSurrogate, isLowSurrogate, encode3. intros Hc Hh Hl.
  assert (c < 55296 \/ 57343 < c) as Hns.
  { destruct (Z.leb_spec 55296 c), (Z.leb_spec c 56319), (Z.leb_spec 56320 c),
      (Z.leb_spec c 57343); cbn in Hh, Hl; try discriminate; lia. }
  clear Hh Hl.
  assert (c < 4096 \/ 53248 <= c < 55296 \/ 4096 <= c < 53248 \/ 57344 <= c)
    as [H|[H|[H|H]]] by lia; decode_step; f_equal; lia.
Qed.

Lemma decode_4 (c d : Z) (bs : list Z) :
  isHighSurrogate c = true -> isLowSurrogate d = true ->
  decode (encode4 (65536 + (c - 55296) * 1024 + (d - 56320)) ++ bs)
  = c :: d :: decode bs.
Proof.
  unfold isHighSurrogate, isLowSurrogate, encode4. intros Hc Hd.
  apply andb_prop in Hc as [Hc1 Hc2]. apply andb_prop in Hd as [Hd1 Hd2].
  apply Z.leb_le in Hc1, Hc2, Hd1, Hd2.
  set (cp := 65536 + (c - 55296) * 1024 + (d - 56320)).
  assert (65536 <= cp < 1114112) as Hcp by (subst cp; lia).
  assert (cp < 262144 \/ 1048576 <= cp \/ 262144 <= cp < 1048576)
    as [H|[H|H]] by lia; decode_step; unfold pair_of; cbn [app];
    (f_equal; [| f_equal]); subst cp; lia.
Qed.

(** Induction on a string with the hypothesis for the tail and for the
    tail of the tail, as the transcoders consume one or two code units. *)
Lemma list_ind_pairs {A} (P : list A -> Prop) :
  P [] ->
  (forall a l, P l -> (forall b l', l = b :: l' -> P l') -> P (a :: l)) ->
  forall l, P l.
Proof.
  intros H0 Hstep.
  assert (Hn : forall n l, (length l <= n)%nat -> P l).
  { induction n as [|n IHn]; intros [|a l] Hlen; try exact H0.
    - cbn in Hlen. lia.
    - cbn in Hlen. apply Hstep.
      + apply IHn. lia.
      + intros b l' ->. apply IHn. cbn in Hlen. lia. }
  intros l. apply (Hn (length l)). lia.
Qed.

Lemma surrogate_cases (c : Z) :
  is_code_unit c ->
  (c < 128 /\ isHighSurrogate c = false /\ isLowSurrogate c = false)
  \/ (128 <= c < 2048 /\ isHighSurrogate c = false /\ isLowSurrogate c = false)
  \/ (2048 <= c /\ isHighSurrogate c = true /\ isLowSurrogate c = false)
  \/ (2048 <= c /\ isHighSurrogate c = false /\ isLowSurrogate c = true)
  \/ (2048 <= c /\ isHighSurrogate c = false /\ isLowSurrogate c = false).
Proof.
  unfold is_code_unit, isHighSurrogate, isLowSurrogate. intros Hc.
  destruct (Z.leb_spec 55296 c), (Z.leb_spec c 56319), (Z.leb_spec 56320 c),
    (Z.leb_spec c 57343); cbn [andb]; lia.
Qed.

Ltac bytes_list := repeat (constructor; [unfold is_byte; lia |]).

(** The encoder produces bytes. *)
Lemma encode_bytes (s : jsstring) :
  Forall is_code_unit s -> Forall is_byte (encode s).
Proof.
  induction s as [|c rest IH IH2] using list_ind_pairs; intros Hs.
  - constructor.
  - apply Forall_cons_1 in Hs as [Hc Hrest]. specialize (IH Hrest).
    pose proof Hc as Hrange. unfold is_code_unit in Hrange.
    cbn [encode].
    destruct (surrogate_cases c Hc) as [(H1 & Hh & Hl)|[(H1 & Hh & Hl)|[(H1 & Hh & Hl)|[(H1 & Hh & Hl)|(H1 & Hh & Hl)]]]];
      rewrite ?Hh, ?Hl; comparisons.
    + constructor; [unfold is_byte; lia | exact IH].
    + apply Forall_app. split; [bytes_list; constructor | exact IH].
    + destruct rest as [|d rest'].
      * unfold replacement_bytes. bytes_list. constructor.
      * apply Forall_cons_1 in Hrest as [Hd Hrest'].
        destruct (isLowSurrogate d) eqn:Hld.
        -- apply Forall_app. split; [| exact (IH2 d rest' eq_refl Hrest')].
           unfold isHighSurrogate, isLowSurrogate in Hh, Hld.
           apply andb_prop in Hh as [Hh1 Hh2]. apply andb_prop in Hld as [Hd1 Hd2].
           apply Z.leb_le in Hh1, Hh2, Hd1, Hd2.
           unfold encode4. bytes_list. constructor.
        -- apply Forall_app. split; [| exact IH].
           unfold replacement_bytes. bytes_list. constructor.
    + apply Forall_app. split; [| exact IH].
      unfold replacement_bytes. bytes_list. constructor.
    + apply Forall_app. split; [| exact IH].
      unfold encode3. bytes_list. constructor.
Qed.

(** Decoding inverts encoding on well-formed strings. *)
Lemma decode_encode (s : jsstring) :
  Forall is_code_unit s -> well_formed s = true -> decode (encode s) = s.
Proof.
  induction s as [|c rest IH IH2] using list_ind_pairs; intros Hs Hwf.
  - reflexivity.
  - apply Forall_cons_1 in Hs as [Hc Hrest].
    pose proof Hc as Hrange. unfold is_code_unit in Hrange.
    cbn [encode well_formed] in *.
    destruct (surrogate_cases c Hc) as [(H1 & Hh & Hl)|[(H1 & Hh & Hl)|[(H1 & Hh & Hl)|[(H1 & Hh & Hl)|(H1 & Hh & Hl)]]]];
      rewrite ?Hh, ?Hl in *; cbn [negb andb] in Hwf; try discriminate; comparisons.
    + rewrite decode_1 by lia. rewrite (IH Hrest Hwf). reflexivity.
    + rewrite decode_2 by lia. rewrite (IH Hrest Hwf). reflexivity.
    + destruct rest as [|d rest']; [discriminate |].
      apply andb_prop in Hwf as [Hld Hwf]. rewrite Hld.
      apply Forall_cons_1 in Hrest as [Hd Hrest'].
      rewrite decode_4 by assumption.
      rewrite (IH2 d rest' eq_refl Hrest' Hwf). reflexivity.
    + rewrite decode_3 by (assumption || lia). rewrite (IH Hrest Hwf). reflexivity.
Qed.

(** An unpaired surrogate does not survive the two transcodings. *)
Lemma decode_encode_lone_surrogate :
  well_formed [55296] = false /\ decode (encode [55296]) = [65533].
Proof. split; reflexivity. Qed.

End CodecFacts.

(** ** The message identity resolver *)

Module ResolverFacts.
Import Js Effects MailParser ImapManager.

(** A parser result that carries a message id is used verbatim. *)
Lemma extractMessageId_parsed amb p mid rawText :
  messageId p = Some mid -> truthy mid = true ->
  extractMessageId amb (Some p) rawText = mid.
Proof.
  intros Hp Hmid. unfold extractMessageId. rewrite Hp, Hmid. reflexivity.
Qed.

(** Without a parser id and without a header match the result is the
    synthetic identifier. *)
Lemma extractMessageId_synthetic amb p rawText :
  messageId p = None ->
  Regex.match_header (lit "Message-ID:") rawText = None ->
  Regex.match_header (lit "Message-Id:") rawText = None ->
  extractMessageId amb (Some p) rawText = synthetic amb.
Proof.
  intros Hp H1 H2. unfold extractMessageId. rewrite Hp, H1, H2. reflexivity.
Qed.

(** What [parseRawEmail] returns never carries a message id, so the worker
    always resolves the identity from the raw text. *)
Lemma parseRawEmail_no_messageId reply raw :
  messageId (parseRawEmail reply raw) = None.
Proof. destruct reply; reflexivity. Qed.

(** The synthetic identifier is never empty. *)
Lemma synthetic_truthy amb : truthy (synthetic amb) = true.
Proof. reflexivity. Qed.

(** The resolver returns the empty string only through the header branch:
    the pattern matched and its capture consists of white space. *)
Lemma extractMessageId_empty_only_blank amb parsed rawText :
  extractMessageId amb parsed rawText = [] ->
  exists capture,
    first_match (Regex.match_header (lit "Message-ID:") rawText)
                (Regex.match_header (lit "Message-Id:") rawText) = Some capture
    /\ truthy capture = true /\ trim capture = [].
Proof.
  unfold extractMessageId.
  set (m := first_match _ _).
  assert (Hraw : match m with
                 | Some m1 => if truthy m1 then trim m1 else synthetic amb
                 | None => synthetic amb
                 end = [] ->
                 exists capture, m = Some capture /\ truthy capture = true
                                 /\ trim capture = []).
  { destruct m as [m1|]; [| discriminate].
    destruct (truthy m1) eqn:Ht; [| discriminate].
    intros Htrim. exists m1. repeat split; assumption. }
  destruct parsed as [p|]; [| exact Hraw].
  destruct (messageId p) as [mid|]; [| exact Hraw].
  destruct (truthy mid) eqn:Hmid; [| exact Hraw].
  intros ->. discriminate.
Qed.

(** C4, evaluated where the header value is blank and the parser gave no
    id.  First the raw text is the single line [Message-ID: ] with one
    trailing space; then it is a header block that ends with such a line.
    The pattern captures the space, the capture is truthy, and trimming it
    leaves the empty string, which is returned: the resolver does not always
    produce a non-empty identifier. *)
Lemma extractMessageId_blank_header amb reply :
  extractMessageId amb (Some (parseRawEmail reply None)) (lit "Message-ID: ") = []
  /\ extractMessageId amb (Some (parseRawEmail reply None))
       (lit "Subject: hello" ++ [13; 10] ++ lit "Message-ID: " ++ [13; 10]) = [].
Proof.
  unfold extractMessageId. rewrite parseRawEmail_no_messageId.
  split; vm_compute; reflexivity.
Qed.

End ResolverFacts.

(** ** The index gateway *)

Module EsClientFacts.
Import Js Effects EsClient CodecFacts.

Lemma or_else_truthy (a b : jsstring) : a <> [] -> or_else a b = a.
Proof. destruct a; [congruence | reflexivity]. Qed.

(** C8, evaluated where the index holds the document and the client hands
    its answer over bare, the boolean true.  The answer has no body, so the
    check resolves to false; it resolves to false for either bare answer,
    and the backfill goes on to upsert the message the index reported
    present.  Only a response object with a body gets its answer through.
    The rest of the claim holds: a request that is rejected is logged and
    gives false, and the promise of the check never rejects. *)
Theorem docExists_drops_bare_answer (amb : Ambient) (accountId messageId : jsstring) :
  docExists amb (Resolved (BareAnswer true)) accountId messageId
    = (Resolved false, [EsExists (docIdFor amb accountId messageId)])
  /\ (forall answer,
        docExists amb (Resolved (BareAnswer answer)) accountId messageId
        = (Resolved false, [EsExists (docIdFor amb accountId messageId)]))
  /\ (forall acct m msg,
        ImapManager.exists_reply msg = Resolved (BareAnswer true) ->
        Observations.index_requests (ImapManager.backfillMessage acct m msg)
        = [(Observations.upsertedId acct m msg, ImapManager.buildDoc acct m msg)])
  /\ (forall body,
        docExists amb (Resolved (ResponseWithBody body)) accountId messageId
        = (Resolved body, [EsExists (docIdFor amb accountId messageId)]))
  /\ docExists amb Rejected accountId messageId
     = (Resolved false,
        [EsExists (docIdFor amb accountId messageId); Console ErrorCheckingDocExists])
  /\ (forall reply, exists b,
        fst (docExists amb reply accountId messageId) = Resolved b).
Proof.
  split; [reflexivity |]. split; [reflexivity |]. split.
  { intros acct m msg Hreply.
    unfold ImapManager.backfillMessage, ImapManager.checkExists, docExists,
      indexEmail, Observations.upsertedId.
    rewrite Hreply. cbn [bodyOf fst snd].
    destruct (ImapManager.index_reply msg); reflexivity. }
  split; [reflexivity |]. split; [reflexivity |].
  intros [response|]; eexists; reflexivity.
Qed.

End EsClientFacts.

(** ** Mailbox enumeration *)

Module ListingFacts.
Import Js Effects ImapManager.

(** Induction on a listing with the hypothesis available for every child. *)
Lemma Box_nested_ind (P : Box -> Prop) :
  P NoBox ->
  (forall name children, Forall P children -> P (mkBox name children)) ->
  forall box, P box.
Proof.
  intros Hnone Hnode. fix IH 1. intros [|name children].
  - exact Hnone.
  - apply Hnode. induction children as [|c cs IHcs].
    + constructor.
    + constructor; [apply IH | exact IHcs].
Qed.

(** Visiting the children with [forEach] appends their sequences in order. *)
Lemma forEach_recurse (children : list Box) :
  Forall (fun c => forall names, recurse c names = names ++ preorder c) children ->
  forall names,
    fold_left (fun names c => recurse c names) children names
    = names ++ flat_map preorder children.
Proof.
  induction 1 as [|c cs Hc _ IH]; intros names; simpl.
  - symmetry. apply app_nil_r.
  - rewrite Hc, IH. symmetry. apply app_assoc.
Qed.

Lemma recurse_appends_preorder (box : Box) (names : list jsstring) :
  recurse box names = names ++ preorder box.
Proof.
  revert names. induction box as [|name children IH] using Box_nested_ind;
    intros names; simpl.
  - symmetry. apply app_nil_r.
  - rewrite (forEach_recurse children IH).
    destruct (truthy name); simpl.
    + rewrite <- app_assoc. reflexivity.
    + reflexivity.
Qed.

(** The sequence of a node is a contiguous run of the sequence of any tree
    the node occurs in. *)
Lemma preorder_occurs (node root : Box) :
  occurs_in node root ->
  exists before after, preorder root = before ++ preorder node ++ after.
Proof.
  induction 1 as [|name children c Hin _ (l1 & l2 & IH)].
  - exists [], []. simpl. symmetry. apply app_nil_r.
  - apply in_split in Hin as (cs1 & cs2 & ->).
    exists ((if truthy name then [name] else []) ++ flat_map preorder cs1 ++ l1),
           (l2 ++ flat_map preorder cs2).
    simpl. rewrite flat_map_app. simpl. rewrite IH.
    rewrite <- !app_assoc. reflexivity.
Qed.

(** C9: flattening a listing yields its names in pre-order.  The array the
    worker builds is the pre-order sequence of the root; and for every named
    node of the listing, its name is followed at once by the sequences of its
    children, one child after the other in their listed order, so the name
    of a parent precedes the names of all of its children. *)
Theorem mailbox_names_preorder (root : Box) :
  recurse root [] = preorder root
  /\ (forall name children,
        preorder (mkBox name children)
        = (if truthy name then [name] else []) ++ concat (map preorder children))
  /\ (forall name children,
        occurs_in (mkBox name children) root -> truthy name = true ->
        exists before after,
          recurse root []
          = before ++ name :: concat (map preorder children) ++ after).
Proof.
  split; [apply recurse_appends_preorder |].
  split.
  - intros name children. simpl. rewrite flat_map_concat_map. reflexivity.
  - intros name children Hocc Hname.
    destruct (preorder_occurs _ _ Hocc) as (before & after & Heq).
    exists before, after. rewrite recurse_appends_preorder. simpl.
    rewrite Heq. simpl. rewrite Hname. simpl.
    rewrite flat_map_concat_map. reflexivity.
Qed.

Lemma mailbox_names_preorder_witness :
  exists before after,
    recurse (mkBox [] [mkBox (lit "INBOX") [mkBox (lit "Old") []];
                       mkBox (lit "Sent") []]) []
    = before ++ lit "INBOX" :: concat (map preorder [mkBox (lit "Old") []]) ++ after.
Proof.
  apply (proj2 (proj2 (mailbox_names_preorder
           (mkBox [] [mkBox (lit "INBOX") [mkBox (lit "Old") []];
                      mkBox (lit "Sent") []])))).
  - eapply occurs_below; [left; reflexivity | apply occurs_here].
  - reflexivity.
Defined.

End ListingFacts.

(** ** The reconnect state machine of one worker *)

Module WorkerFacts.
Import Js Effects ImapManager Examples.

Lemma delays_app (e1 e2 : list Effect) : delays (e1 ++ e2) = delays e1 ++ delays e2.
Proof. apply flat_map_app. Qed.


(** *** Effects that neither set a timer nor begin a connect *)

Lemma quiet_app (e1 e2 : list Effect) : quiet e1 -> quiet e2 -> quiet (e1 ++ e2).
Proof. intros H1 H2. apply Forall_app. split; assumption. Qed.

Lemma quiet_cons (e : Effect) (eff : list Effect) :
  is_reconnect e = false -> quiet eff -> quiet (e :: eff).
Proof. intros H1 H2. constructor; assumption. Qed.

Lemma quiet_nil : quiet [].
Proof. constructor. Qed.

Lemma quiet_delays (eff : list Effect) : quiet eff -> delays eff = [].
Proof.
  induction 1 as [|e eff He _ IH]; [reflexivity |].
  simpl. rewrite IH. destruct e; try reflexivity; discriminate.
Qed.

Ltac quiet_list := repeat (apply quiet_cons; [reflexivity |]); try apply quiet_nil.

Lemma checkExists_quiet acct msg : quiet (snd (checkExists acct msg)).
Proof.
  unfold checkExists, EsClient.docExists.
  destruct (exists_reply msg); simpl; quiet_list.
Qed.

Lemma indexEmail_quiet amb reply doc : quiet (snd (EsClient.indexEmail amb reply doc)).
Proof. unfold EsClient.indexEmail. destruct reply; simpl; quiet_list. Qed.

Lemma backfillMessage_quiet acct m msg : quiet (backfillMessage acct m msg).
Proof.
  unfold backfillMessage.
  pose proof (checkExists_quiet acct msg) as Hc.
  destruct (checkExists acct msg) as [[|] eff]; simpl in Hc; [exact Hc |].
  pose proof (indexEmail_quiet (amb_index msg) (index_reply msg) (buildDoc acct m msg)) as Hi.
  destruct (EsClient.indexEmail _ _ _) as [r eff']; simpl in Hi.
  repeat apply quiet_app; auto. destruct r; quiet_list.
Qed.

Lemma fetchLast30DaysForMailbox_quiet script acct m :
  quiet (fetchLast30DaysForMailbox script acct m).
Proof.
  unfold fetchLast30DaysForMailbox.
  apply quiet_cons; [reflexivity |].
  destruct (open_readonly script); [| quiet_list].
  apply quiet_cons; [reflexivity |].
  destruct (search_reply script) as [[|u uids]|]; [quiet_list | | quiet_list].
  apply quiet_cons; [reflexivity |]. apply quiet_app.
  - apply Forall_flat_map. apply Forall_forall. intros msg _.
    apply backfillMessage_quiet.
  - destruct (ending (fetch_stream script)); quiet_list.
Qed.

Lemma newMessages_quiet acct m msgs : quiet (snd (newMessages acct m msgs)).
Proof.
  induction msgs as [|msg rest IH]; simpl; [apply quiet_nil |].
  pose proof (checkExists_quiet acct msg) as Hc.
  destruct (checkExists acct msg) as [[|] eff]; simpl in Hc |- *.
  - apply quiet_app; [exact Hc | quiet_list].
  - pose proof (indexEmail_quiet (amb_index msg) (index_reply msg) (buildDoc acct m msg)) as Hi.
    destruct (EsClient.indexEmail _ _ _) as [r eff']; simpl in Hi.
    destruct (newMessages acct m rest) as [ret eff_rest]; simpl in IH |- *.
    apply quiet_app; [exact Hc |]. apply quiet_app; [exact Hi |].
    apply quiet_cons; [destruct r; reflexivity | exact IH].
Qed.

Lemma handleNewMessageInMailbox_quiet stream acct m seqNo :
  quiet (handleNewMessageInMailbox stream acct m seqNo).
Proof.
  unfold handleNewMessageInMailbox.
  pose proof (newMessages_quiet acct m (items stream)) as Hn.
  destruct (newMessages acct m (items stream)) as [ret eff]; simpl in Hn.
  apply quiet_cons; [reflexivity |]. apply quiet_app; [exact Hn |].
  destruct ret; [quiet_list |]. destruct (ending stream); quiet_list.
Qed.

Lemma existsSettled_quiet script acct m : quiet (existsSettled script acct m).
Proof.
  unfold existsSettled.
  destruct (reopen script) as [total|]; [| quiet_list].
  destruct (total <=? 0); [quiet_list | apply handleNewMessageInMailbox_quiet].
Qed.

Lemma emitExists_quiet scripts i listeners :
  quiet (snd (emitExists scripts i listeners)).
Proof.
  revert i. induction listeners as [|m rest IH]; intros i; cbn [emitExists].
  - apply quiet_nil.
  - specialize (IH (S i)). destruct (emitExists scripts (S i) rest) as [calls eff].
    cbn [snd] in *. apply quiet_cons; [reflexivity | exact IH].
Qed.

(** A turn of a call of an 'exists' listener changes nothing of the worker
    but the record of that call, and performs at most one effect, which is
    neither a timer nor a connect. *)
Lemma existsResumed_worker (t : nat) (w : Worker) :
  exists calls,
    fst (existsResumed t w) = set_client (set_started calls (client w)) w
    /\ length calls = length (started (client w)).
Proof.
  unfold existsResumed.
  assert (Hsame : exists calls,
            w = set_client (set_started calls (client w)) w
            /\ length calls = length (started (client w))).
  { exists (started (client w)). split; [| reflexivity].
    destruct w as [[] ? ? ? ?]; reflexivity. }
  destruct (started (client w) !! t) as [call|]; [| exact Hsame].
  destruct (existsSettled _ _ _ !! handler_done call) as [e|]; [| exact Hsame].
  eexists. split; [reflexivity |]. apply length_insert.
Qed.

Lemma existsResumed_quiet (t : nat) (w : Worker) : quiet (snd (existsResumed t w)).
Proof.
  unfold existsResumed.
  destruct (started (client w) !! t) as [call|]; [| apply quiet_nil].
  destruct (existsSettled _ _ _ !! handler_done call) as [e|] eqn:He; [| apply quiet_nil].
  cbn [snd]. apply quiet_cons; [| apply quiet_nil].
  pose proof (existsSettled_quiet (handler_script call) (accountId w)
                (handler_mailbox call)) as Hq.
  unfold quiet in Hq. rewrite Forall_lookup in Hq. exact (Hq _ _ He).
Qed.

Lemma subscribeMailbox_quiet s acct i m c :
  quiet (snd (subscribeMailbox s acct i m c)).
Proof.
  unfold subscribeMailbox.
  destruct (open_readwrite (mailbox_script s i)); cbn [snd];
    (apply quiet_app; [apply fetchLast30DaysForMailbox_quiet | quiet_list]).
Qed.

Lemma subscribeAll_quiet s acct i names c :
  quiet (snd (subscribeAll s acct i names c)).
Proof.
  revert i c. induction names as [|m rest IH]; intros i c; cbn [subscribeAll].
  - apply quiet_nil.
  - pose proof (subscribeMailbox_quiet s acct i m c) as H1.
    destruct (subscribeMailbox s acct i m c) as [c1 eff1].
    specialize (IH (S i) c1).
    destruct (subscribeAll s acct (S i) rest c1) as [c2 eff2].
    cbn [snd] in *. apply quiet_app; assumption.
Qed.

(** A resolved connect resets the counter, leaves the flag alone, and
    neither sets a timer nor begins another connect. *)
Lemma connectSettled_resolved (s : Session) (w : Worker) :
  reconnectAttempts (fst (connectSettled (Resolved s) w)) = 0
  /\ shuttingDown (fst (connectSettled (Resolved s) w)) = shuttingDown w
  /\ quiet (snd (connectSettled (Resolved s) w)).
Proof.
  unfold connectSettled.
  destruct (listing s) as [boxes|].
  - pose proof (subscribeAll_quiet s (accountId w) 0 (recurse boxes [])
                  (client (set_reconnectAttempts 0 (set_connected true w)))) as Hq.
    destruct (subscribeAll _ _ _ _ _) as [c eff]. simpl in *.
    repeat split. quiet_list. exact Hq.
  - simpl. repeat split. quiet_list.
Qed.



End WorkerFacts.

(** ** Stopping a worker *)

Module ShutdownFacts.
Import Js Effects ImapManager Examples WorkerFacts.

(** *** One worker *)

Lemma emit_preserves (P : Worker -> Prop) (listener : Worker -> Worker * list Effect) :
  (forall w, P w -> P (fst (listener w)) /\ quiet (snd (listener w))) ->
  forall n w, P w -> P (fst (emit n listener w)) /\ quiet (snd (emit n listener w)).
Proof.
  intros Hl. induction n as [|n IH]; intros w Hw; cbn [emit].
  - split; [exact Hw | apply quiet_nil].
  - destruct (Hl w Hw) as [H1 Hq1]. destruct (listener w) as [w1 eff1].
    destruct (IH w1 H1) as [H2 Hq2]. destruct (emit n listener w1) as [w2 eff2].
    cbn [fst snd] in *. split; [exact H2 | apply quiet_app; assumption].
Qed.

Lemma lostListener_shutting_down (line : LogLine) (w : Worker) :
  shuttingDown w = true ->
  shuttingDown (fst (lostListener line w)) = true
  /\ quiet (snd (lostListener line w)).
Proof.
  intros Hs. unfold lostListener. simpl. rewrite Hs. simpl.
  split; [exact Hs | quiet_list].
Qed.

(** Once the flag is set, nothing that runs for the worker clears it, sets a
    timer or begins a connect. *)
Lemma callback_shutting_down (cb : Callback) (w : Worker) :
  shuttingDown w = true ->
  shuttingDown (fst (callback cb w)) = true /\ quiet (snd (callback cb w)).
Proof.
  intros Hs. destruct cb as [|[s|]| | | |scripts|t]; cbn [callback].
  - unfold timerFired. rewrite Hs. split; [exact Hs | apply quiet_nil].
  - destruct (connectSettled_resolved s w) as (_ & Hflag & Hq).
    rewrite Hflag. split; assumption.
  - unfold connectSettled, retryConnect. simpl. rewrite Hs. simpl.
    split; [exact Hs | quiet_list].
  - apply (emit_preserves (fun w' => shuttingDown w' = true)); [| exact Hs].
    intros w'. apply lostListener_shutting_down.
  - apply (emit_preserves (fun w' => shuttingDown w' = true)); [| exact Hs].
    intros w'. apply lostListener_shutting_down.
  - apply (emit_preserves (fun w' => shuttingDown w' = true)); [| exact Hs].
    intros w' Hw'. split; [exact Hw' | quiet_list].
  - pose proof (emitExists_quiet scripts 0 (onExists (client w))) as Hq.
    destruct (emitExists scripts 0 (onExists (client w))) as [calls eff].
    split; [exact Hs | exact Hq].
  - destruct (existsResumed_worker t w) as (calls & -> & _).
    split; [exact Hs | apply existsResumed_quiet].
Qed.

(** No callback changes the account a worker belongs to. *)
Lemma callback_account (cb : Callback) (w : Worker) :
  account (fst (callback cb w)) = account w.
Proof.
  assert (Hemit : forall listener,
            (forall w', account (fst (listener w')) = account w') ->
            forall n w', account (fst (emit n listener w')) = account w').
  { intros listener Hl. induction n as [|n IH]; intros w'; cbn [emit]; [reflexivity |].
    specialize (Hl w'). destruct (listener w') as [w1 eff1].
    specialize (IH w1). destruct (emit n listener w1) as [w2 eff2].
    cbn [fst] in *. congruence. }
  assert (Hlost : forall line w', account (fst (lostListener line w')) = account w').
  { intros line w'. unfold lostListener, retryConnect. simpl.
    destruct (shuttingDown w'); reflexivity. }
  destruct cb as [|[s|]| | | |scripts|t]; cbn [callback].
  - unfold timerFired, connectAndListen. destruct (shuttingDown w); reflexivity.
  - unfold connectSettled. destruct (listing s) as [boxes|].
    + destruct (subscribeAll _ _ _ _ _) as [c eff]. reflexivity.
    + reflexivity.
  - unfold connectSettled, retryConnect. simpl. destruct (shuttingDown w); reflexivity.
  - apply Hemit. intros w'. apply Hlost.
  - apply Hemit. intros w'. apply Hlost.
  - apply Hemit. intros w'. reflexivity.
  - destruct (emitExists scripts 0 (onExists (client w))) as [calls eff]. reflexivity.
  - destruct (existsResumed_worker t w) as (calls & -> & _). reflexivity.
Qed.

(** *** The registry and the worker objects *)

Lemma reconnects_of_app (r : nat) (t1 t2 : Trace) :
  reconnects_of r (t1 ++ t2) = reconnects_of r t1 ++ reconnects_of r t2.
Proof. apply flat_map_app. Qed.

Lemma reconnects_of_other (r r0 : nat) (eff : list Effect) :
  r0 <> r -> reconnects_of r (map (pair r0) eff) = [].
Proof.
  intros Hne. induction eff as [|e eff IH]; [reflexivity |].
  cbn [map reconnects_of flat_map fst snd] in *.
  destruct (Nat.eqb_spec r0 r) as [->|_]; [contradiction |]. exact IH.
Qed.

Lemma reconnects_of_quiet (r r0 : nat) (eff : list Effect) :
  quiet eff -> reconnects_of r (map (pair r0) eff) = [].
Proof.
  induction 1 as [|e eff He _ IH]; [reflexivity |].
  cbn [map reconnects_of flat_map fst snd] in *.
  rewrite He, andb_false_r. exact IH.
Qed.

Lemma on_worker_registered_ok r f sys :
  (forall w, account (fst (f w)) = account w) ->
  registered_ok sys -> registered_ok (fst (on_worker r f sys)).
Proof.
  intros Hf Hok. unfold on_worker.
  destruct (heap sys !! r) as [w|] eqn:Hr; [| exact Hok].
  specialize (Hf w). destruct (f w) as [w' eff]. cbn [fst] in *.
  intros k r0 Hk. cbn [workers heap] in *.
  destruct (Hok k r0 Hk) as (w0 & Hw0 & Hid).
  destruct (decide (r = r0)) as [->|Hne].
  - exists w'. split.
    + apply list_lookup_insert_eq. eapply lookup_lt_Some; eassumption.
    + rewrite Hf. congruence.
  - exists w0. split; [| exact Hid].
    rewrite list_lookup_insert_ne by exact Hne. exact Hw0.
Qed.

Lemma step_registered_ok (e : Event) (sys : System) :
  registered_ok sys -> registered_ok (fst (step e sys)).
Proof.
  intros Hok. destruct e as [a|k|k r logout|r cb]; cbn [step].
  - unfold startWorkerForAccount.
    destruct (workers sys !! id a) as [r|] eqn:Ha; [exact Hok |].
    cbn [fst connectAndListen newWorker shuttingDown].
    intros k r0 Hk. cbn [workers heap] in *.
    destruct (decide (id a = k)) as [<-|Hne].
    + rewrite lookup_insert_eq in Hk. injection Hk as <-.
      exists (newWorker a). split; [| reflexivity].
      rewrite lookup_app_r by lia. rewrite Nat.sub_diag. reflexivity.
    + rewrite lookup_insert_ne in Hk by exact Hne.
      destruct (Hok k r0 Hk) as (w0 & Hw0 & Hid).
      exists w0. split; [| exact Hid].
      rewrite lookup_app_l; [exact Hw0 | eapply lookup_lt_Some; eassumption].
  - unfold stopRequested. destruct (workers sys !! k) as [r|]; [| exact Hok].
    apply on_worker_registered_ok; [| exact Hok]. intros w. reflexivity.
  - intros k0 r0 Hk. cbn [stopSettled fst workers heap] in *.
    destruct (decide (k = k0)) as [<-|Hne].
    + rewrite lookup_delete_eq in Hk. discriminate.
    + rewrite lookup_delete_ne in Hk by exact Hne. exact (Hok k0 r0 Hk).
  - apply on_worker_registered_ok; [| exact Hok]. intros w. apply callback_account.
Qed.

Lemma run_registered_ok (es : list Event) (sys : System) :
  registered_ok sys -> registered_ok (fst (run es sys)).
Proof.
  revert sys. induction es as [|e es IH]; intros sys Hok; cbn [run]; [exact Hok |].
  pose proof (step_registered_ok e sys Hok) as H1.
  destruct (step e sys) as [sys1 tr1]. specialize (IH sys1 H1).
  destruct (run es sys1) as [sys2 tr2]. exact IH.
Qed.

Lemma reachable_registered_ok (history : list Event) :
  registered_ok (fst (run history initial)).
Proof.
  apply run_registered_ok. intros k r Hk. cbn in Hk.
  rewrite lookup_empty in Hk. discriminate.
Qed.

Lemma on_worker_stopped r r0 f sys :
  (forall w, shuttingDown w = true ->
             shuttingDown (fst (f w)) = true /\ quiet (snd (f w))) ->
  stopped r sys ->
  stopped r (fst (on_worker r0 f sys))
  /\ reconnects_of r (snd (on_worker r0 f sys)) = [].
Proof.
  intros Hf (w & Hw & Hs). unfold on_worker.
  destruct (decide (r0 = r)) as [->|Hne].
  - rewrite Hw. destruct (Hf w Hs) as [Hs' Hq]. destruct (f w) as [w' eff].
    cbn [fst snd heap] in *. split.
    + exists w'. split; [| exact Hs'].
      apply list_lookup_insert_eq. eapply lookup_lt_Some; eassumption.
    + apply reconnects_of_quiet. exact Hq.
  - destruct (heap sys !! r0) as [w0|]; [| split; [exists w; auto | reflexivity]].
    destruct (f w0) as [w' eff]. cbn [fst snd heap]. split.
    + exists w. split; [| exact Hs]. simpl.
      rewrite list_lookup_insert_ne by exact Hne. exact Hw.
    + apply reconnects_of_other. exact Hne.
Qed.

Lemma step_stopped (e : Event) (r : nat) (sys : System) :
  stopped r sys ->
  stopped r (fst (step e sys)) /\ reconnects_of r (snd (step e sys)) = [].
Proof.
  intros Hst. destruct e as [a|k|k r0 logout|r0 cb]; cbn [step].
  - unfold startWorkerForAccount.
    destruct (workers sys !! id a) as [r1|].
    + cbn [fst snd]. split; [exact Hst |].
      cbn. rewrite andb_false_r. reflexivity.
    + cbn [connectAndListen newWorker shuttingDown fst snd].
      destruct Hst as (w & Hw & Hs). split.
      * exists w. split; [| exact Hs]. cbn [heap].
        rewrite lookup_app_l; [exact Hw | eapply lookup_lt_Some; eassumption].
      * apply reconnects_of_other. apply lookup_lt_Some in Hw. lia.
  - unfold stopRequested. destruct (workers sys !! k) as [r1|].
    + apply on_worker_stopped; [| exact Hst].
      intros w _. split; [reflexivity | quiet_list].
    + split; [exact Hst | reflexivity].
  - cbn [stopSettled fst snd]. split; [exact Hst |].
    apply reconnects_of_quiet. destruct logout; quiet_list.
  - apply on_worker_stopped; [| exact Hst]. intros w. apply callback_shutting_down.
Qed.

Lemma run_stopped (es : list Event) (r : nat) (sys : System) :
  stopped r sys ->
  stopped r (fst (run es sys)) /\ reconnects_of r (snd (run es sys)) = [].
Proof.
  revert sys. induction es as [|e es IH]; intros sys Hst; cbn [run].
  - split; [exact Hst | reflexivity].
  - destruct (step_stopped e r sys Hst) as [H1 Hq1].
    destruct (step e sys) as [sys1 tr1]. destruct (IH sys1 H1) as [H2 Hq2].
    destruct (run es sys1) as [sys2 tr2]. cbn [fst snd] in *.
    split; [exact H2 |]. rewrite reconnects_of_app, Hq1, Hq2. reflexivity.
Qed.

Lemma stopRequested_registered (accountId : Z) (r : nat) (sys : System) :
  registered_ok sys -> workers sys !! accountId = Some r ->
  snd (stopRequested accountId sys) = [(r, ImapLogout)]
  /\ stopped r (fst (stopRequested accountId sys))
  /\ workers (fst (stopRequested accountId sys)) = workers sys.
Proof.
  intros Hok Hk. destruct (Hok _ _ Hk) as (w & Hw & _).
  unfold stopRequested, on_worker. rewrite Hk, Hw. cbn [fst snd].
  repeat split. exists (set_shuttingDown true w). split; [| reflexivity].
  simpl. apply list_lookup_insert_eq. eapply lookup_lt_Some; eassumption.
Qed.

Lemma timer_after_stop (r : nat) (sys : System) :
  stopped r sys -> step (Fire r TimerFired) sys = (sys, []).
Proof.
  intros (w & Hw & Hs). cbn [step]. unfold on_worker. rewrite Hw.
  cbn [callback]. unfold timerFired. rewrite Hs. cbn [map]. rewrite list_insert_id by exact Hw.
  destruct sys; reflexivity.
Qed.

(** C3: stopping a registered worker.  In any state the backend can reach,
    let stop be invoked for an account whose worker is registered at [r].
    The first half of stop sets the shutting-down flag and begins the
    logout.  From then on, whatever is run afterwards and in whatever order
    (timers firing, close and end notifications, a pending connect
    settling, other workers starting or stopping), the flag stays set and
    no timer is set and no connect is begun for that worker; a timer
    callback that fires changes nothing and has no effect at all.  When the
    logout settles, a rejection is logged and nothing more, and the account
    is no longer in the registry. *)
Theorem stop_suppresses_reconnect (history later : list Event) (accountId : Z)
    (r : nat) (logout : outcome unit) :
  let sys := fst (run history initial) in
  workers sys !! accountId = Some r ->
  let requested := stopRequested accountId sys in
  let after := run later (fst requested) in
  let settled := stopSettled accountId r logout (fst after) in
  snd requested = [(r, ImapLogout)]
  /\ stopped r (fst requested)
  /\ stopped r (fst after)
  /\ reconnects_of r (snd after) = []
  /\ step (Fire r TimerFired) (fst after) = (fst after, [])
  /\ workers (fst settled) !! accountId = None
  /\ snd settled
     = map (pair r)
         (match logout with
          | Resolved _ => []
          | Rejected => [Console ErrorLoggingOut]
          end ++ [Console (WorkerStopped accountId)]).
Proof.
  intros sys Hk requested after settled.
  destruct (stopRequested_registered accountId r sys
              (reachable_registered_ok history) Hk) as (Htr & Hst & _).
  destruct (run_stopped later r (fst requested) Hst) as [Hst' Hq].
  repeat split; try assumption.
  - apply timer_after_stop. exact Hst'.
  - subst settled. cbn [stopSettled fst workers]. apply lookup_delete_eq.
Qed.

Lemma stop_suppresses_reconnect_witness :
  reconnects_of 0
    (snd (run [Fire 0 (ConnectSettled Rejected); Fire 0 TimerFired;
               Fire 0 CloseEmitted; Fire 0 EndEmitted]
              (fst (stopRequested 7
                      (fst (run [Start demo_account;
                                 Fire 0 (ConnectSettled Rejected)] initial))))))
  = [].
Proof.
  refine (proj1 (proj2 (proj2 (proj2
    (stop_suppresses_reconnect
       [Start demo_account; Fire 0 (ConnectSettled Rejected)]
       [Fire 0 (ConnectSettled Rejected); Fire 0 TimerFired;
        Fire 0 CloseEmitted; Fire 0 EndEmitted]
       7 0 Rejected _))))).
  reflexivity.
Defined.

(** ** The registry *)

Lemma startWorkerForAccount_registered (a : AccountRow) (r : nat) (sys : System) :
  workers sys !! id a = Some r ->
  startWorkerForAccount a sys = (sys, [(r, Console (WorkerAlreadyRunning (id a)))]).
Proof. intros Hk. unfold startWorkerForAccount. rewrite Hk. reflexivity. Qed.

Lemma startWorkerForAccount_registers (a : AccountRow) (sys : System) :
  is_Some (workers (fst (startWorkerForAccount a sys)) !! id a).
Proof.
  unfold startWorkerForAccount.
  destruct (workers sys !! id a) as [r|] eqn:Hk; cbn [fst].
  - rewrite Hk. eexists; reflexivity.
  - cbn [connectAndListen newWorker shuttingDown fst workers].
    rewrite lookup_insert_eq. eexists; reflexivity.
Qed.

(** C2: the registry.  In every state the backend can reach, an account id
    is registered for at most one worker object: the entry of an id points
    at one worker object, that object belongs to that account, and no object
    is registered under two ids.  Start for an id that is registered changes
    nothing and logs one line; so after two starts in a row the state is
    what it was after the first, with the id registered.  Stop for an id
    that is not registered changes nothing and has no effect. *)
Theorem at_most_one_worker (history : list Event) (a : AccountRow) (k : Z)
    (logout : outcome unit) :
  let sys := fst (run history initial) in
  let once := fst (startWorkerForAccount a sys) in
  (forall k' r, workers sys !! k' = Some r ->
     exists w, heap sys !! r = Some w /\ id (account w) = k')
  /\ (forall k1 k2 r,
        workers sys !! k1 = Some r -> workers sys !! k2 = Some r -> k1 = k2)
  /\ (forall r, workers sys !! id a = Some r ->
        startWorkerForAccount a sys
        = (sys, [(r, Console (WorkerAlreadyRunning (id a)))]))
  /\ is_Some (workers once !! id a)
  /\ fst (startWorkerForAccount a once) = once
  /\ (workers sys !! k = None ->
        stopWorkerForAccount k logout sys = (sys, [])
        /\ stopRequested k sys = (sys, [])).
Proof.
  intros sys once.
  pose proof (reachable_registered_ok history) as Hok. fold sys in Hok.
  split; [exact Hok |]. split.
  { intros k1 k2 r H1 H2.
    destruct (Hok _ _ H1) as (w1 & Hw1 & <-).
    destruct (Hok _ _ H2) as (w2 & Hw2 & <-). congruence. }
  split; [intros r; apply startWorkerForAccount_registered |].
  pose proof (startWorkerForAccount_registers a sys) as [r Hr]. fold once in Hr.
  split; [eexists; exact Hr |]. split.
  { rewrite (startWorkerForAccount_registered a r once Hr). reflexivity. }
  intros Hk. unfold stopWorkerForAccount, stopRequested. rewrite Hk. split; reflexivity.
Qed.

Lemma at_most_one_worker_witness :
  stopWorkerForAccount 8 Rejected (fst (run [Start demo_account] initial))
  = (fst (run [Start demo_account] initial), []).
Proof.
  refine (proj1 (proj2 (proj2 (proj2 (proj2 (proj2
    (at_most_one_worker [Start demo_account] demo_account 8 Rejected))))) _)).
  reflexivity.
Defined.

End ShutdownFacts.

(** ** Mailbox subscriptions *)

Module SubscriptionFacts.
Import Js Effects ImapManager Examples Observations.

Lemma subscribeMailbox_listeners s acct i m c :
  onExists (fst (subscribeMailbox s acct i m c))
  = onExists c ++ match open_readwrite (mailbox_script s i) with
                  | Resolved _ => [m]
                  | Rejected => []
                  end.
Proof.
  unfold subscribeMailbox. destruct (open_readwrite (mailbox_script s i)); cbn [fst].
  - reflexivity.
  - symmetry. apply app_nil_r.
Qed.

Lemma subscribeAll_listeners s acct names : forall i c,
  onExists (fst (subscribeAll s acct i names c)) = onExists c ++ opened s i names.
Proof.
  induction names as [|m rest IH]; intros i c; cbn [subscribeAll opened].
  - symmetry. apply app_nil_r.
  - pose proof (subscribeMailbox_listeners s acct i m c) as H1.
    destruct (subscribeMailbox s acct i m c) as [c1 eff1].
    specialize (IH (S i) c1).
    destruct (subscribeAll s acct (S i) rest c1) as [c2 eff2].
    cbn [fst] in *. rewrite IH, H1, <- app_assoc. reflexivity.
Qed.

(** The listeners after a connect that succeeded. *)
Lemma connectSettled_listeners (s : Session) (w : Worker) :
  onExists (client (fst (connectSettled (Resolved s) w)))
  = onExists (client w)
    ++ match listing s with
       | Resolved boxes => opened s 0 (recurse boxes [])
       | Rejected => []
       end.
Proof.
  unfold connectSettled. destruct (listing s) as [boxes|].
  - pose proof (subscribeAll_listeners s (accountId w) (recurse boxes []) 0
                  (client (set_reconnectAttempts 0 (set_connected true w)))) as H.
    destruct (subscribeAll _ _ _ _ _) as [c eff]. cbn [fst] in *.
    simpl. exact H.
  - simpl. symmetry. apply app_nil_r.
Qed.

Lemma emit_client (listener : Worker -> Worker * list Effect) :
  (forall w, client (fst (listener w)) = client w) ->
  forall n w, client (fst (emit n listener w)) = client w.
Proof.
  intros Hl. induction n as [|n IH]; intros w; cbn [emit]; [reflexivity |].
  specialize (Hl w). destruct (listener w) as [w1 eff1].
  specialize (IH w1). destruct (emit n listener w1) as [w2 eff2].
  cbn [fst] in *. congruence.
Qed.

Lemma lostListener_client (line : LogLine) (w : Worker) :
  client (fst (lostListener line w)) = client w.
Proof.
  unfold lostListener, retryConnect. simpl. destruct (shuttingDown w); reflexivity.
Qed.

(** No callback removes an 'exists' listener. *)
Lemma callback_keeps_listeners (cb : Callback) (w : Worker) :
  exists more,
    onExists (client (fst (callback cb w))) = onExists (client w) ++ more.
Proof.
  assert (Hsame : forall w', client w' = client w ->
                             exists more, onExists (client w') = onExists (client w) ++ more).
  { intros w' ->. exists []. symmetry. apply app_nil_r. }
  assert (Hcalls : forall calls,
            exists more,
              onExists (client (set_client (set_started calls (client w)) w))
              = onExists (client w) ++ more).
  { intros calls. exists []. symmetry. apply app_nil_r. }
  destruct cb as [|[s|]| | | |scripts|t]; cbn [callback].
  - apply Hsame. unfold timerFired, connectAndListen.
    destruct (shuttingDown w); reflexivity.
  - eexists. apply connectSettled_listeners.
  - apply Hsame. unfold connectSettled, retryConnect. simpl.
    destruct (shuttingDown w); reflexivity.
  - apply Hsame. apply emit_client. intros w'. apply lostListener_client.
  - apply Hsame. apply emit_client. intros w'. apply lostListener_client.
  - apply Hsame. apply emit_client. intros w'. reflexivity.
  - destruct (emitExists scripts 0 (onExists (client w))) as [calls eff]. apply Hcalls.
  - destruct (WorkerFacts.existsResumed_worker t w) as (calls & -> & _). apply Hcalls.
Qed.

Lemma callbacks_keep_listeners (cbs : list Callback) (w : Worker) :
  exists more,
    onExists (client (fst (callbacks cbs w))) = onExists (client w) ++ more.
Proof.
  revert w. induction cbs as [|cb cbs IH]; intros w; cbn [callbacks].
  - exists []. symmetry. apply app_nil_r.
  - destruct (callback_keeps_listeners cb w) as [more1 H1].
    destruct (callback cb w) as [w1 eff1]. destruct (IH w1) as [more2 H2].
    destruct (callbacks cbs w1) as [w2 eff2]. cbn [fst] in *.
    exists (more1 ++ more2). rewrite H2, H1, <- app_assoc. reflexivity.
Qed.

(** One 'exists' notification calls the listener at every position: the
    re-opens are issued in registration order and nothing else happens in
    that turn; the calls are recorded after those started earlier. *)
Lemma emitExists_calls scripts listeners : forall j,
  snd (emitExists scripts j listeners) = reopens listeners
  /\ length (fst (emitExists scripts j listeners)) = length listeners
  /\ (forall i m, listeners !! i = Some m ->
        fst (emitExists scripts j listeners) !! i
        = Some {| handler_mailbox := m; handler_script := scripts (j + i)%nat;
                  handler_done := 0 |}).
Proof.
  induction listeners as [|m0 rest IH]; intros j; cbn [emitExists].
  - repeat split. intros i m Hi. discriminate.
  - destruct (IH (S j)) as (Heff & Hlen & Hcalls).
    destruct (emitExists scripts (S j) rest) as [calls eff]. cbn [fst snd] in *.
    split; [cbn [reopens map]; f_equal; exact Heff |].
    split; [cbn [length]; f_equal; exact Hlen |].
    intros [|i] m Hi.
    + injection Hi as ->. rewrite Nat.add_0_r. reflexivity.
    + change ((_ :: calls) !! S i) with (calls !! i).
      change ((m0 :: rest) !! S i) with (rest !! i) in Hi.
      rewrite (Hcalls i m Hi).
      replace (S j + i)%nat with (j + S i)%nat by lia. reflexivity.
Qed.

Lemma lastOpened_reopens (listeners : list jsstring) :
  lastOpened (reopens listeners) = last listeners.
Proof.
  unfold lastOpened, reopens. f_equal.
  induction listeners as [|m rest IH]; [reflexivity |].
  cbn [map flat_map app]. f_equal. exact IH.
Qed.

Lemma callbacks_one (cb : Callback) (w : Worker) :
  snd (callbacks [cb] w) = snd (callback cb w).
Proof.
  cbn [callbacks]. destruct (callback cb w) as [w1 eff1]. cbn [snd]. apply app_nil_r.
Qed.

(** The turns of one call, taken one after the other, perform what remains
    of its program in order. *)
Lemma existsResumed_turns (t : nat) : forall n w call,
  started (client w) !! t = Some call ->
  snd (callbacks (repeat (ExistsResumed t) n) w)
  = take n (drop (handler_done call)
              (existsSettled (handler_script call) (accountId w) (handler_mailbox call))).
Proof.
  induction n as [|n IH]; intros w call Hcall; [reflexivity |].
  cbn [repeat callbacks callback]. unfold existsResumed. rewrite Hcall.
  destruct (existsSettled _ _ _ !! handler_done call) as [e|] eqn:He.
  - set (call' := {| handler_mailbox := handler_mailbox call;
                     handler_script := handler_script call;
                     handler_done := S (handler_done call) |}).
    set (w' := set_client _ w).
    assert (Hcall' : started (client w') !! t = Some call').
    { subst w'. cbn [client set_client started set_started].
      apply list_lookup_insert_eq. eapply lookup_lt_Some; exact Hcall. }
    specialize (IH w' call' Hcall').
    destruct (callbacks (repeat (ExistsResumed t) n) w') as [w2 eff2].
    cbn [fst snd] in *. rewrite IH. subst call'. cbn [handler_done handler_script handler_mailbox].
    rewrite (drop_S _ _ _ He). reflexivity.
  - specialize (IH w call Hcall).
    destruct (callbacks (repeat (ExistsResumed t) n) w) as [w2 eff2].
    cbn [fst snd] in *. rewrite IH.
    apply lookup_ge_None in He. rewrite drop_ge by exact He.
    rewrite !take_nil. reflexivity.
Qed.

(** The first thing a call does when its re-open has resolved with a
    positive count is to fetch the message at that sequence number. *)
Lemma existsSettled_fetches script acct m total :
  reopen script = Resolved total -> 0 < total ->
  exists rest, existsSettled script acct m = ImapFetchSeq total :: rest.
Proof.
  intros Hre Hpos. unfold existsSettled. rewrite Hre.
  destruct (Z.leb_spec total 0) as [Hle|_]; [lia |].
  unfold handleNewMessageInMailbox.
  destruct (newMessages acct m (items (newest script))) as [ret eff].
  eexists. reflexivity.
Qed.

(** C10, as stated, fails twice.  Where a mailbox cannot be opened
    read-write: the listing enumerates the one mailbox INBOX, its read-write
    open is rejected, and the connect registers no 'exists' listener at all.
    Where two listeners are registered, for INBOX and for Sent: one 'exists'
    event issues the re-open of INBOX and then the re-open of Sent, and the
    two calls, resumed when their re-opens have resolved with a count of
    five, each fetch sequence number five; the call for INBOX does so on a
    connection that was last asked to open Sent. *)
Lemma listener_per_mailbox_counterexample :
  recurse (mkBox [] [mkBox (lit "INBOX") []]) [] = [lit "INBOX"]
  /\ onExists (client (fst (connectSettled
                              (Resolved (demo_session (demo_mailbox (Resolved []) Rejected)))
                              (newWorker demo_account))))
     = []
  /\ onExists (client (fst (connectSettled
                              (Resolved (demo_session_two
                                           (demo_mailbox (Resolved []) (Resolved tt))
                                           (demo_mailbox (Resolved []) (Resolved tt))))
                              (newWorker demo_account))))
     = [lit "INBOX"; lit "Sent"]
  /\ snd (callbacks [ExistsEmitted (demo_listener 5); ExistsResumed 0; ExistsResumed 1]
            (fst (connectSettled
                    (Resolved (demo_session_two
                                 (demo_mailbox (Resolved []) (Resolved tt))
                                 (demo_mailbox (Resolved []) (Resolved tt))))
                    (newWorker demo_account))))
     = [ImapMailboxOpen (lit "INBOX") false; ImapMailboxOpen (lit "Sent") false;
        ImapFetchSeq 5; ImapFetchSeq 5]
  /\ lastOpened [ImapMailboxOpen (lit "INBOX") false; ImapMailboxOpen (lit "Sent") false]
     = Some (lit "Sent").
Proof. repeat split; reflexivity. Qed.

(** C10, amended: a successful connect appends, after the listeners already
    registered on the connection, one 'exists' listener for every enumerated
    mailbox whose read-write open resolved, in enumeration order; nothing
    that runs afterwards removes a listener, reconnects included, so the
    listeners only accumulate.  One 'exists' event calls every registered
    listener: in that one turn the re-open of the mailbox of each listener
    is issued, in registration order, and nothing else, and no listener is
    added or removed.  Each call then goes on in turns of its own: taken one
    after the other they perform what the listener does once its re-open has
    settled, in the order of its program, and when the re-open resolved with
    a positive count the first of them fetches the message at that sequence
    number.  When that fetch is issued, the mailbox the connection was last
    asked to open is the one of the last listener registered. *)
Theorem exists_listeners_accumulate (w : Worker) (s : Session) (boxes : Box)
    (later : list Callback) (scripts : nat -> ListenerScript) :
  listing s = Resolved boxes ->
  let w1 := fst (connectSettled (Resolved s) w) in
  let w2 := fst (callbacks later w1) in
  let emitted := callback (ExistsEmitted scripts) w2 in
  onExists (client w1) = onExists (client w) ++ opened s 0 (recurse boxes [])
  /\ (exists more, onExists (client w2) = onExists (client w1) ++ more)
  /\ snd emitted = reopens (onExists (client w2))
  /\ onExists (client (fst emitted)) = onExists (client w2)
  /\ lastOpened (snd emitted) = last (onExists (client w2))
  /\ (forall i m, onExists (client w2) !! i = Some m ->
        let t := (length (started (client w2)) + i)%nat in
        started (client (fst emitted)) !! t
        = Some {| handler_mailbox := m; handler_script := scripts i;
                  handler_done := 0 |}
        /\ (forall n,
              snd (callbacks (repeat (ExistsResumed t) n) (fst emitted))
              = take n (existsSettled (scripts i) (accountId w2) m))
        /\ (forall total, reopen (scripts i) = Resolved total -> 0 < total ->
              snd (callback (ExistsResumed t) (fst emitted)) = [ImapFetchSeq total])).
Proof.
  intros Hlist w1 w2 emitted. split.
  { subst w1. rewrite connectSettled_listeners, Hlist. reflexivity. }
  split; [apply callbacks_keep_listeners |].
  subst emitted. cbn [callback].
  destruct (emitExists_calls scripts (onExists (client w2)) 0) as (Heff & Hlen & Hcalls).
  destruct (emitExists scripts 0 (onExists (client w2))) as [calls eff].
  cbn [fst snd] in *.
  split; [exact Heff |]. split; [reflexivity |].
  split; [rewrite Heff; apply lastOpened_reopens |].
  intros i m Hi. set (t := (length (started (client w2)) + i)%nat).
  set (w3 := set_client _ w2).
  assert (Hcall : started (client w3) !! t
                  = Some {| handler_mailbox := m; handler_script := scripts i;
                            handler_done := 0 |}).
  { subst w3 t. cbn [client set_client started set_started].
    rewrite lookup_app_r by lia.
    replace (length (started (client w2)) + i - length (started (client w2)))%nat
      with i by lia.
    exact (Hcalls i m Hi). }
  assert (Hturns : forall n,
            snd (callbacks (repeat (ExistsResumed t) n) w3)
            = take n (existsSettled (scripts i) (accountId w2) m)).
  { intros n. rewrite (existsResumed_turns t n w3 _ Hcall). reflexivity. }
  split; [exact Hcall |]. split; [exact Hturns |].
  intros total Hre Hpos.
  destruct (existsSettled_fetches (scripts i) (accountId w2) m total Hre Hpos)
    as (rest & Hrest).
  transitivity (snd (callbacks (repeat (ExistsResumed t) 1) w3));
    [symmetry; apply callbacks_one |].
  rewrite Hturns, Hrest. reflexivity.
Qed.

Lemma exists_listeners_accumulate_witness :
  onExists (client (fst (connectSettled
                           (Resolved (demo_session_two
                                        (demo_mailbox (Resolved []) (Resolved tt))
                                        (demo_mailbox Rejected (Resolved tt))))
                           (fst (connectSettled
                                   (Resolved (demo_session_two
                                                (demo_mailbox (Resolved []) Rejected)
                                                (demo_mailbox (Resolved []) (Resolved tt))))
                                   (newWorker demo_account))))))
  = [lit "Sent"; lit "INBOX"; lit "Sent"]
  /\ snd (callback (ExistsEmitted (demo_listener 5))
            (fst (connectSettled
                    (Resolved (demo_session_two
                                 (demo_mailbox (Resolved []) (Resolved tt))
                                 (demo_mailbox Rejected (Resolved tt))))
                    (fst (connectSettled
                            (Resolved (demo_session_two
                                         (demo_mailbox (Resolved []) Rejected)
                                         (demo_mailbox (Resolved []) (Resolved tt))))
                            (newWorker demo_account))))))
     = reopens [lit "Sent"; lit "INBOX"; lit "Sent"].
Proof.
  destruct (exists_listeners_accumulate
              (fst (connectSettled
                      (Resolved (demo_session_two
                                   (demo_mailbox (Resolved []) Rejected)
                                   (demo_mailbox (Resolved []) (Resolved tt))))
                      (newWorker demo_account)))
              (demo_session_two (demo_mailbox (Resolved []) (Resolved tt))
                                (demo_mailbox Rejected (Resolved tt)))
              (mkBox [] [mkBox (lit "INBOX") []; mkBox (lit "Sent") []]) []
              (demo_listener 5) eq_refl)
    as (Hreg & _ & Hemit & _).
  split; [exact Hreg | exact Hemit].
Defined.

End SubscriptionFacts.

(** ** Error isolation during backfill *)

Module BackfillFacts.
Import Js Effects ImapManager Examples Observations SubscriptionFacts.

(** Every message the fetch yields is run through the pipeline, whatever
    happened to the messages before it. *)
Lemma backfill_reaches_each script acct m u uids pre msg post :
  open_readonly script = Resolved tt ->
  search_reply script = Resolved (u :: uids) ->
  items (fetch_stream script) = pre ++ msg :: post ->
  exists before after,
    fetchLast30DaysForMailbox script acct m
    = before ++ backfillMessage acct m msg ++ after.
Proof.
  intros Hopen Hsearch Hitems. unfold fetchLast30DaysForMailbox.
  rewrite Hopen, Hsearch, Hitems, flat_map_app. cbn [flat_map].
  eexists (_ :: _ :: _ :: flat_map _ pre), _.
  cbn [app]. do 3 f_equal. rewrite <- !app_assoc. reflexivity.
Qed.

(** A message the index does not report as present is upserted; when the
    upsert is rejected, the gateway and the worker each log it and the
    function returns normally. *)
Lemma backfill_upsert acct m msg :
  fst (checkExists acct msg) = false ->
  let doc := buildDoc acct m msg in
  let id := EsClient.docIdFor (amb_index msg) (doc_accountId doc) (doc_messageId doc) in
  backfillMessage acct m msg
  = snd (checkExists acct msg)
    ++ EsIndex id doc
       :: match index_reply msg with
          | Resolved _ => []
          | Rejected => [Console (FailedToIndexEmail id); Console IndexingErrorHistorical]
          end.
Proof.
  intros Hex doc id. unfold backfillMessage.
  destruct (checkExists acct msg) as [ex eff]. cbn [fst snd] in *. subst ex.
  unfold EsClient.indexEmail. fold doc. fold id.
  destruct (index_reply msg); cbn [app]; rewrite ?app_nil_r; reflexivity.
Qed.

(** The three ways the backfill of a mailbox can fail, each logged. *)
Lemma backfill_failures script acct m :
  (open_readonly script = Rejected ->
   fetchLast30DaysForMailbox script acct m
   = [ImapMailboxOpen m true; Console (ErrorFetchingMailbox m)])
  /\ (open_readonly script = Resolved tt -> search_reply script = Rejected ->
      fetchLast30DaysForMailbox script acct m
      = [ImapMailboxOpen m true; ImapSearchSince; Console (ErrorFetchingMailbox m)])
  /\ (forall u uids,
        open_readonly script = Resolved tt ->
        search_reply script = Resolved (u :: uids) ->
        ending (fetch_stream script) = Rejected ->
        fetchLast30DaysForMailbox script acct m
        = [ImapMailboxOpen m true; ImapSearchSince; ImapFetchUids (u :: uids)]
          ++ flat_map (backfillMessage acct m) (items (fetch_stream script))
          ++ [Console (ErrorFetchingMailbox m)]).
Proof.
  unfold fetchLast30DaysForMailbox. repeat split.
  - intros ->. reflexivity.
  - intros -> ->. reflexivity.
  - intros u uids -> -> ->. reflexivity.
Qed.

(** The loop over the mailboxes reaches every one of them. *)
Lemma subscribeAll_reaches_each s acct pre m post : forall i c,
  exists c' before after,
    snd (subscribeAll s acct i (pre ++ m :: post) c)
    = before ++ snd (subscribeMailbox s acct (i + length pre) m c') ++ after.
Proof.
  induction pre as [|m0 pre IH]; intros i c; cbn [app subscribeAll length].
  - exists c, []. rewrite Nat.add_0_r.
    destruct (subscribeMailbox s acct i m c) as [c1 eff1].
    destruct (subscribeAll s acct (S i) post c1) as [c2 eff2].
    exists eff2. reflexivity.
  - destruct (subscribeMailbox s acct i m0 c) as [c1 eff1].
    destruct (IH (S i) c1) as (c' & before & after & Heq).
    destruct (subscribeAll s acct (S i) (pre ++ m :: post) c1) as [c2 eff2].
    cbn [snd] in *. exists c', (eff1 ++ before), after.
    rewrite Heq, <- app_assoc.
    replace (i + S (length pre))%nat with (S i + length pre)%nat by lia.
    reflexivity.
Qed.

Lemma subscribeMailbox_effects s acct i m c :
  snd (subscribeMailbox s acct i m c)
  = fetchLast30DaysForMailbox (mailbox_script s i) acct m
    ++ ImapMailboxOpen m false
       :: match open_readwrite (mailbox_script s i) with
          | Resolved _ => []
          | Rejected => [Console (CouldNotFetchOrSubscribe m acct)]
          end.
Proof.
  unfold subscribeMailbox. destruct (open_readwrite (mailbox_script s i)); reflexivity.
Qed.

Lemma connectSettled_effects (s : Session) (w : Worker) (boxes : Box) :
  listing s = Resolved boxes ->
  snd (connectSettled (Resolved s) w)
  = Console (ImapConnected (accountId w)) :: ImapListMailboxes
    :: snd (subscribeAll s (accountId w) 0 (recurse boxes [])
              (client (set_reconnectAttempts 0 (set_connected true w)))).
Proof.
  intros Hl. unfold connectSettled. rewrite Hl.
  destruct (subscribeAll _ _ _ _ _) as [c eff]. reflexivity.
Qed.

(** C7, as stated, fails in its second half: the search of INBOX is
    rejected during backfill, which is logged, and the worker goes on to
    open INBOX read-write and to register its listener.  The mailbox is not
    skipped entirely. *)
Lemma mailbox_not_skipped_counterexample :
  snd (connectSettled (Resolved (demo_session (demo_mailbox Rejected (Resolved tt))))
         (newWorker demo_account))
  = [Console (ImapConnected 7); ImapListMailboxes;
     ImapMailboxOpen (lit "INBOX") true; ImapSearchSince;
     Console (ErrorFetchingMailbox (lit "INBOX"));
     ImapMailboxOpen (lit "INBOX") false]
  /\ onExists (client (fst (connectSettled
                              (Resolved (demo_session (demo_mailbox Rejected (Resolved tt))))
                              (newWorker demo_account))))
     = [lit "INBOX"].
Proof. split; reflexivity. Qed.

Lemma subscribeAll_turns s acct names : forall i c,
  snd (subscribeAll s acct i names c) = mailboxTurns s acct i names.
Proof.
  induction names as [|m rest IH]; intros i c; cbn [subscribeAll mailboxTurns];
    [reflexivity |].
  pose proof (subscribeMailbox_effects s acct i m c) as H1.
  destruct (subscribeMailbox s acct i m c) as [c1 eff1].
  specialize (IH (S i) c1).
  destruct (subscribeAll s acct (S i) rest c1) as [c2 eff2].
  cbn [snd] in *. rewrite H1, IH. reflexivity.
Qed.

Lemma mailboxTurns_app s acct pre post : forall i,
  mailboxTurns s acct i (pre ++ post)
  = mailboxTurns s acct i pre ++ mailboxTurns s acct (i + length pre) post.
Proof.
  induction pre as [|m pre IH]; intros i; cbn [app mailboxTurns length].
  - rewrite Nat.add_0_r. reflexivity.
  - rewrite IH, <- app_assoc.
    replace (S i + length pre)%nat with (i + S (length pre))%nat by lia. reflexivity.
Qed.

Lemma opened_app s pre post : forall i,
  opened s i (pre ++ post) = opened s i pre ++ opened s (i + length pre) post.
Proof.
  induction pre as [|m pre IH]; intros i; cbn [app opened length].
  - rewrite Nat.add_0_r. reflexivity.
  - rewrite IH, <- app_assoc.
    replace (S i + length pre)%nat with (i + S (length pre))%nat by lia. reflexivity.
Qed.

(** A message the index reports as present is checked and nothing more. *)
Lemma backfill_present acct m msg :
  fst (checkExists acct msg) = true ->
  backfillMessage acct m msg = snd (checkExists acct msg).
Proof.
  intros Hex. unfold backfillMessage.
  destruct (checkExists acct msg) as [ex eff]. cbn [fst snd] in *. subst ex. reflexivity.
Qed.

(** C7, amended.  Let [m] be any mailbox of the flattened listing of a
    successful connect, at position [length pre].  The worker takes the
    mailboxes in order and none is left out: after the mailboxes before [m],
    whatever failed for them, it runs the backfill of [m] and then the
    read-write open of [m], whatever failed in the backfill, and goes on to
    the mailboxes after [m]; a rejection of that read-write open is logged.
    The listener of [m] is registered exactly when that read-write open
    resolved, so only its rejection leaves [m] without a listener.  A
    failure inside the backfill (the read-only open, the search, or the
    fetch) is logged and ends the backfill only.  Inside the backfill every
    fetched message is processed, whatever happened to the messages before
    it: a message the index reports present is checked and nothing more, a
    message it does not report is upserted, and a rejected upsert is logged
    and nothing more. *)
Theorem backfill_isolates_failures (s : Session) (w : Worker) (boxes : Box)
    (pre post : list jsstring) (m : jsstring) :
  listing s = Resolved boxes ->
  recurse boxes [] = pre ++ m :: post ->
  let script := mailbox_script s (length pre) in
  let acct := accountId w in
  let connected := connectSettled (Resolved s) w in
  let failed := [Console (ErrorFetchingMailbox m)] in
  snd connected
  = Console (ImapConnected acct) :: ImapListMailboxes
    :: mailboxTurns s acct 0 pre
       ++ (fetchLast30DaysForMailbox script acct m
           ++ ImapMailboxOpen m false
              :: match open_readwrite script with
                 | Resolved _ => []
                 | Rejected => [Console (CouldNotFetchOrSubscribe m acct)]
                 end)
       ++ mailboxTurns s acct (S (length pre)) post
  /\ onExists (client (fst connected))
     = onExists (client w)
       ++ opened s 0 pre
       ++ match open_readwrite script with
          | Resolved _ => [m]
          | Rejected => []
          end
       ++ opened s (S (length pre)) post
  /\ (open_readonly script = Rejected ->
      fetchLast30DaysForMailbox script acct m = ImapMailboxOpen m true :: failed)
  /\ (open_readonly script = Resolved tt -> search_reply script = Rejected ->
      fetchLast30DaysForMailbox script acct m
      = ImapMailboxOpen m true :: ImapSearchSince :: failed)
  /\ (forall u uids,
        open_readonly script = Resolved tt ->
        search_reply script = Resolved (u :: uids) ->
        fetchLast30DaysForMailbox script acct m
        = [ImapMailboxOpen m true; ImapSearchSince; ImapFetchUids (u :: uids)]
          ++ flat_map (backfillMessage acct m) (items (fetch_stream script))
          ++ match ending (fetch_stream script) with
             | Resolved _ => []
             | Rejected => failed
             end)
  /\ (forall msg,
        fst (checkExists acct msg) = true ->
        backfillMessage acct m msg = snd (checkExists acct msg))
  /\ (forall msg,
        fst (checkExists acct msg) = false ->
        let doc := buildDoc acct m msg in
        let id := EsClient.docIdFor (amb_index msg) (doc_accountId doc) (doc_messageId doc) in
        backfillMessage acct m msg
        = snd (checkExists acct msg)
          ++ EsIndex id doc
             :: match index_reply msg with
                | Resolved _ => []
                | Rejected => [Console (FailedToIndexEmail id);
                               Console IndexingErrorHistorical]
                end).
Proof.
  intros Hl Hnames script acct connected failed.
  destruct (backfill_failures script acct m) as (Hopen & Hsearch & _).
  split.
  { subst connected. rewrite (connectSettled_effects s w boxes Hl), Hnames.
    rewrite subscribeAll_turns, (mailboxTurns_app s (accountId w) pre (m :: post) 0).
    reflexivity. }
  split.
  { subst connected. rewrite connectSettled_listeners, Hl, Hnames.
    rewrite (opened_app s pre (m :: post) 0). reflexivity. }
  split; [exact Hopen |]. split; [exact Hsearch |]. split.
  { intros u uids Ho Hs. unfold fetchLast30DaysForMailbox. rewrite Ho, Hs. reflexivity. }
  split; [intros msg; apply backfill_present |].
  intros msg Hex. apply backfill_upsert. exact Hex.
Qed.

Lemma backfill_isolates_failures_witness :
  onExists (client (fst (connectSettled
                           (Resolved (demo_session_two demo_inbox
                                        (demo_mailbox Rejected Rejected)))
                           (newWorker demo_account))))
  = [lit "INBOX"]
  /\ snd (connectSettled
            (Resolved (demo_session_two demo_inbox (demo_mailbox Rejected Rejected)))
            (newWorker demo_account))
     = Console (ImapConnected 7) :: ImapListMailboxes
       :: fetchLast30DaysForMailbox demo_inbox 7 (lit "INBOX")
       ++ [ImapMailboxOpen (lit "INBOX") false;
           ImapMailboxOpen (lit "Sent") true; ImapSearchSince;
           Console (ErrorFetchingMailbox (lit "Sent"));
           ImapMailboxOpen (lit "Sent") false;
           Console (CouldNotFetchOrSubscribe (lit "Sent") 7)].
Proof.
  destruct (backfill_isolates_failures
              (demo_session_two demo_inbox (demo_mailbox Rejected Rejected))
              (newWorker demo_account)
              (mkBox [] [mkBox (lit "INBOX") []; mkBox (lit "Sent") []])
              [] [lit "Sent"] (lit "INBOX") eq_refl eq_refl)
    as (Heff & Hlisteners & _).
  split; [exact Hlisteners |].
  rewrite Heff. cbn [mailboxTurns app length]. rewrite <- app_assoc. reflexivity.
Defined.
End BackfillFacts.

(** ** The credential codec *)

Module CryptoFacts.
Import Js Utf8 Crypto Examples CodecFacts.

(** The three slices of [decryptString] recover the three parts
    [encryptString] concatenated. *)
Lemma token_slices (iv tag encrypted : list Z) :
  length iv = 12%nat -> length tag = 16%nat ->
  Forall is_byte iv -> Forall is_byte tag -> Forall is_byte encrypted ->
  let data := Base64.decode (Base64.base64 (iv ++ tag ++ encrypted)) in
  take 12 data = iv /\ take 16 (drop 12 data) = tag /\ drop 28 data = encrypted.
Proof.
  intros Hiv Htag Biv Btag Benc data. subst data.
  rewrite base64_decode_encode by (repeat (apply Forall_app; split); assumption).
  repeat split.
  - apply take_app_length'. symmetry. exact Hiv.
  - rewrite drop_app_length' by (symmetry; exact Hiv).
    apply take_app_length'. symmetry. exact Htag.
  - rewrite app_assoc. apply drop_app_length'.
    rewrite length_app, Hiv, Htag. reflexivity.
Qed.

Section Scheme.

Variable sha256 : list Z -> list Z.
Variable gcm_seal : list Z -> list Z -> list Z -> list Z * list Z.
Variable gcm_open : list Z -> list Z -> list Z -> list Z -> option (list Z).

(** What the statements below assume of the cipher: sealing bytes yields
    bytes and a tag of 16 bytes, and opening what was sealed, with the same
    key and nonce, returns the plaintext. *)
Hypothesis seal_bytes : forall key iv plain,
  Forall is_byte plain ->
  Forall is_byte (fst (gcm_seal key iv plain))
  /\ Forall is_byte (snd (gcm_seal key iv plain))
  /\ length (snd (gcm_seal key iv plain)) = 16%nat.

Hypothesis open_seal : forall key iv plain,
  Forall is_byte plain ->
  gcm_open key iv (snd (gcm_seal key iv plain)) (fst (gcm_seal key iv plain))
  = Some plain.

(** What the statement on rejected tokens assumes besides, both by the
    construction of the cipher.  The ciphertext is the plaintext combined
    with a key stream and the tag is computed from the ciphertext: so what
    the decipher opens, given a tag of full length, is what sealing the
    result under the same key and nonce produces, and two plaintexts with
    one ciphertext are equal. *)
Hypothesis open_sealed : forall key iv tag encrypted plain,
  Forall is_byte iv -> Forall is_byte tag -> Forall is_byte encrypted ->
  length tag = 16%nat ->
  gcm_open key iv tag encrypted = Some plain ->
  Forall is_byte plain /\ gcm_seal key iv plain = (encrypted, tag).

Hypothesis seal_injective : forall key iv plain plain',
  Forall is_byte plain -> Forall is_byte plain' ->
  fst (gcm_seal key iv plain) = fst (gcm_seal key iv plain') -> plain = plain'.

Lemma getKey_set (secret : jsstring) :
  truthy secret = true -> getKey sha256 (Some secret) = inr (key_of sha256 secret).
Proof. intros H. unfold getKey. rewrite H. reflexivity. Qed.

(** What a token of [encryptString] decrypts to under any key: the cipher
    is asked to open exactly what was sealed. *)
Lemma decrypt_token (master : option jsstring) (key key' iv : list Z) (plain : jsstring) :
  length iv = 12%nat -> Forall is_byte iv -> Forall is_code_unit plain ->
  getKey sha256 master = inr key' ->
  let sealed := gcm_seal key iv (Utf8.encode plain) in
  decryptString sha256 gcm_open master
    (Base64.base64 (iv ++ snd sealed ++ fst sealed))
  = match gcm_open key' iv (snd sealed) (fst sealed) with
    | Some decrypted => inr (Utf8.decode decrypted)
    | None => inl UnableToAuthenticate
    end.
Proof.
  intros Hiv Biv Hplain Hkey sealed.
  destruct (seal_bytes key iv (Utf8.encode plain) (encode_bytes plain Hplain))
    as (Benc & Btag & Htag).
  destruct (token_slices iv (snd sealed) (fst sealed) Hiv Htag Biv Btag Benc)
    as (H1 & H2 & H3).
  unfold decryptString. rewrite Hkey, H1, H2, H3. reflexivity.
Qed.

(** Encrypting and decrypting under one secret returns the plaintext as the
    two UTF-8 transcodings leave it. *)
Lemma roundtrip_transcoded (secret : jsstring) (iv : list Z) (plain : jsstring) :
  truthy secret = true ->
  length iv = 12%nat -> Forall is_byte iv -> Forall is_code_unit plain ->
  exists token,
    encryptString sha256 gcm_seal (Some secret) iv plain = inr token
    /\ decryptString sha256 gcm_open (Some secret) token
       = inr (Utf8.decode (Utf8.encode plain)).
Proof.
  intros Hsecret Hiv Biv Hplain.
  unfold encryptString. rewrite (getKey_set secret Hsecret).
  pose proof (decrypt_token (Some secret) (key_of sha256 secret) (key_of sha256 secret) iv plain
                Hiv Biv Hplain (getKey_set secret Hsecret)) as Hdec.
  cbn zeta in Hdec.
  rewrite (open_seal _ _ _ (encode_bytes plain Hplain)) in Hdec.
  destruct (gcm_seal (key_of sha256 secret) iv (Utf8.encode plain)) as [encrypted tag].
  eexists. split; [reflexivity | exact Hdec].
Qed.






End Scheme.

(** The stand-in scheme meets the two assumptions. *)
Lemma demo_seal_bytes key iv plain :
  Forall is_byte plain ->
  Forall is_byte (fst (demo_seal key iv plain))
  /\ Forall is_byte (snd (demo_seal key iv plain))
  /\ length (snd (demo_seal key iv plain)) = 16%nat.
Proof.
  intros Hp. cbn [demo_seal fst snd]. unfold demo_tag. repeat split.
  - apply Forall_map. eapply Forall_impl; [exact Hp |].
    unfold is_byte. intros b Hb. simpl. lia.
  - apply Forall_map. apply Forall_forall. intros b _. unfold is_byte. simpl. lia.
  - rewrite length_map, length_take, length_app, repeat_length. lia.
Qed.

Lemma demo_open_seal key iv plain :
  Forall is_byte plain ->
  demo_open key iv (snd (demo_seal key iv plain)) (fst (demo_seal key iv plain))
  = Some plain.
Proof.
  intros Hp. cbn [demo_seal fst snd]. unfold demo_open.
  rewrite bool_decide_eq_true_2 by reflexivity. f_equal.
  rewrite map_map. induction Hp as [|b plain Hb _ IH]; [reflexivity |].
  cbn [map]. rewrite IH. f_equal. lia.
Qed.





End CryptoFacts.

(** ** More on the message identity resolver *)

Module ResolverMore.
Import Js Effects MailParser ImapManager Observations ResolverFacts.

(** What a successful greedy repetition consumed. *)
Lemma star_consumes {R} cls (s : jsstring) (k : jsstring -> option R) r :
  Regex.star cls s k = Some r ->
  exists taken rest,
    s = taken ++ rest /\ Forall (fun c => cls c = true) taken /\ k rest = Some r.
Proof.
  induction s as [|c s IH]; cbn [Regex.star]; intros H.
  - exists [], []. split; [reflexivity |]. split; [constructor | exact H].
  - destruct (cls c) eqn:Hc.
    + destruct (Regex.star cls s k) as [r'|] eqn:Hs.
      * injection H as ->. destruct (IH eq_refl) as (taken & rest & -> & Hall & Hk).
        exists (c :: taken), rest.
        split; [reflexivity |]. split; [constructor; assumption | exact Hk].
      * exists [], (c :: s). split; [reflexivity |]. split; [constructor | exact H].
    + exists [], (c :: s). split; [reflexivity |]. split; [constructor | exact H].
Qed.

Lemma star_capture_consumes {R} cls (s acc : jsstring)
    (k : jsstring -> jsstring -> option R) r :
  Regex.star_capture cls acc s k = Some r ->
  exists taken rest,
    s = taken ++ rest /\ Forall (fun c => cls c = true) taken
    /\ k (acc ++ taken) rest = Some r.
Proof.
  revert acc. induction s as [|c s IH]; intros acc; cbn [Regex.star_capture]; intros H.
  - exists [], []. rewrite (app_nil_r acc).
    split; [reflexivity |]. split; [constructor | exact H].
  - destruct (cls c) eqn:Hc.
    + destruct (Regex.star_capture cls (acc ++ [c]) s k) as [r'|] eqn:Hs.
      * injection H as ->. destruct (IH _ Hs) as (taken & rest & -> & Hall & Hk).
        exists (c :: taken), rest. rewrite <- app_assoc in Hk.
        split; [reflexivity |]. split; [constructor; assumption | exact Hk].
      * exists [], (c :: s). rewrite (app_nil_r acc).
        split; [reflexivity |]. split; [constructor | exact H].
    + exists [], (c :: s). rewrite (app_nil_r acc).
      split; [reflexivity |]. split; [constructor | exact H].
Qed.

Lemma literal_consumes {R} (pat s : jsstring) (k : jsstring -> option R) r :
  Regex.literal pat s k = Some r ->
  exists matched rest,
    s = matched ++ rest
    /\ map Regex.canonicalize matched = map Regex.canonicalize pat
    /\ k rest = Some r.
Proof.
  revert s. induction pat as [|p pat IH]; intros s; cbn [Regex.literal]; intros H.
  - exists [], s. repeat split. exact H.
  - destruct s as [|c s]; [discriminate |].
    destruct (Z.eqb_spec (Regex.canonicalize c) (Regex.canonicalize p)) as [Heq|];
      [| discriminate].
    destruct (IH s H) as (matched & rest & -> & Hm & Hk).
    exists (c :: matched), rest. cbn [map]. rewrite Heq, Hm. repeat split. exact Hk.
Qed.

(** The shape of one successful attempt of the pattern. *)
Lemma header_at_shape header prev s capture :
  Regex.header_at header prev s = Some capture ->
  exists blank1 name blank2 after,
    s = blank1 ++ name ++ blank2 ++ capture ++ after
    /\ map Regex.canonicalize name = map Regex.canonicalize header
    /\ Forall (fun c => isSpace c = true) blank2
    /\ truthy capture = true
    /\ Forall (fun c => isLineTerminator c = false) capture
    /\ Regex.eol after = true.
Proof.
  unfold Regex.header_at. destruct (Regex.bol prev); [| discriminate]. intros H.
  apply star_consumes in H as (blank1 & s1 & -> & _ & H).
  apply literal_consumes in H as (name & s2 & -> & Hname & H).
  apply star_consumes in H as (blank2 & s3 & -> & Hblank & H).
  unfold Regex.plus_capture in H. destruct s3 as [|c s3]; [discriminate |].
  destruct (Regex.dot c) eqn:Hc; [| discriminate].
  apply star_capture_consumes in H as (taken & after & -> & Hall & H).
  destruct (Regex.eol after) eqn:Heol; [| discriminate]. injection H as <-.
  exists blank1, name, blank2, after. cbn [app]. repeat split; try assumption.
  constructor.
  - unfold Regex.dot in Hc. apply negb_true_iff in Hc. exact Hc.
  - eapply Forall_impl; [exact Hall |]. intros x Hx.
    unfold Regex.dot in Hx. apply negb_true_iff in Hx. exact Hx.
Qed.

Lemma search_from_shape header s : forall prev capture,
  Regex.search_from header prev s = Some capture ->
  exists before name blank after,
    s = before ++ name ++ blank ++ capture ++ after
    /\ map Regex.canonicalize name = map Regex.canonicalize header
    /\ Forall (fun c => isSpace c = true) blank
    /\ truthy capture = true
    /\ Forall (fun c => isLineTerminator c = false) capture
    /\ Regex.eol after = true.
Proof.
  induction s as [|c s IH]; intros prev capture; cbn [Regex.search_from].
  - destruct (Regex.header_at header prev []) as [cap|] eqn:Hat; [| discriminate].
    intros [= ->]. apply header_at_shape in Hat
      as (b1 & name & b2 & after & Hs & Hn & Hb & Ht & Hl & He).
    exists b1, name, b2, after. repeat split; assumption.
  - destruct (Regex.header_at header prev (c :: s)) as [cap|] eqn:Hat.
    + intros [= ->]. apply header_at_shape in Hat
        as (b1 & name & b2 & after & Hs & Hn & Hb & Ht & Hl & He).
      exists b1, name, b2, after. repeat split; assumption.
    + intros H. apply IH in H as (before & name & blank & after & -> & Hn & Hb & Ht & Hl & He).
      exists (c :: before), name, blank, after. repeat split; assumption.
Qed.

(** A literal is matched through its canonical form only. *)
Lemma literal_canonical {R} (pat pat' : jsstring) :
  map Regex.canonicalize pat = map Regex.canonicalize pat' ->
  forall s (k : jsstring -> option R), Regex.literal pat s k = Regex.literal pat' s k.
Proof.
  revert pat'. induction pat as [|p pat IH]; intros [|p' pat'] Heq s k;
    try discriminate; [reflexivity |].
  cbn [map] in Heq. injection Heq as Hp Hrest.
  cbn [Regex.literal]. destruct s as [|c s]; [reflexivity |].
  rewrite Hp. destruct (_ =? _); [apply IH; exact Hrest | reflexivity].
Qed.

Lemma star_ext {R} cls (s : jsstring) (k k' : jsstring -> option R) :
  (forall x, k x = k' x) -> Regex.star cls s k = Regex.star cls s k'.
Proof.
  intros Hk. induction s as [|c s IH]; cbn [Regex.star]; [apply Hk |].
  rewrite IH, Hk. reflexivity.
Qed.

Lemma match_header_canonical (header header' s : jsstring) :
  map Regex.canonicalize header = map Regex.canonicalize header' ->
  Regex.match_header header s = Regex.match_header header' s.
Proof.
  intros Heq. unfold Regex.match_header. generalize (@None code_unit).
  assert (Hat : forall prev t, Regex.header_at header prev t
                               = Regex.header_at header' prev t).
  { intros prev t. unfold Regex.header_at. destruct (Regex.bol prev); [| reflexivity].
    apply star_ext. intros x. apply literal_canonical. exact Heq. }
  induction s as [|c s IH]; intros prev; cbn [Regex.search_from]; rewrite Hat.
  - reflexivity.
  - destruct (Regex.header_at header' prev (c :: s)); [reflexivity | apply IH].
Qed.

(** X1: whenever the header pattern matches, the raw text reads: something,
    the header name in any letter case, white space, the capture, and then
    the end of the text or a line terminator.  The capture is never empty
    and holds no line terminator, so it is the rest of its line.  The second
    pattern of the source differs from the first in letter case only and
    never contributes: the match is that of the first pattern. *)
Theorem header_capture_shape (rawText capture : jsstring) :
  first_match (Regex.match_header (lit "Message-ID:") rawText)
              (Regex.match_header (lit "Message-Id:") rawText) = Some capture ->
  Regex.match_header (lit "Message-ID:") rawText = Some capture
  /\ exists before name blank after,
       rawText = before ++ name ++ blank ++ capture ++ after
       /\ map Regex.canonicalize name = lit "MESSAGE-ID:"
       /\ Forall (fun c => isSpace c = true) blank
       /\ truthy capture = true
       /\ Forall (fun c => isLineTerminator c = false) capture
       /\ Regex.eol after = true.
Proof.
  rewrite (match_header_canonical (lit "Message-Id:") (lit "Message-ID:") rawText eq_refl).
  intros H.
  assert (Hm : Regex.match_header (lit "Message-ID:") rawText = Some capture).
  { destruct (Regex.match_header (lit "Message-ID:") rawText); exact H. }
  split; [exact Hm |].
  apply search_from_shape in Hm as (before & name & blank & after & Hs & Hn & Hb & Ht & Hl & He).
  exists before, name, blank, after. repeat split; assumption.
Qed.

Lemma header_capture_shape_witness :
  Regex.match_header (lit "Message-ID:")
    (lit "Subject: hi" ++ [13; 10] ++ lit "message-id:  <a@b> " ++ [13; 10] ++ lit "body")
  = Some (lit "<a@b> ").
Proof.
  refine (proj1 (header_capture_shape _ (lit "<a@b> ") _)).
  vm_compute. reflexivity.
Defined.

(** *** Trimming *)

Lemma drop_while_head p (s : jsstring) :
  match drop_while p s with [] => True | c :: _ => p c = false end.
Proof.
  induction s as [|c s IH]; cbn [drop_while]; [exact I |].
  destruct (p c) eqn:Hc; [exact IH | exact Hc].
Qed.

Lemma drop_while_snoc p (s : jsstring) (d : code_unit) :
  p d = false -> drop_while p (s ++ [d]) = drop_while p s ++ [d].
Proof.
  intros Hd. induction s as [|c s IH]; cbn [drop_while app].
  - rewrite Hd. reflexivity.
  - destruct (p c); [exact IH | reflexivity].
Qed.

Lemma trim_trimmed (s : jsstring) : trimmed (trim s).
Proof.
  unfold trim, trimStart, trimEnd.
  pose proof (drop_while_head isSpace s) as Hhead.
  destruct (drop_while isSpace s) as [|c t]; [left; reflexivity |].
  right. cbn [rev]. rewrite (drop_while_snoc _ _ _ Hhead), rev_app_distr. cbn [rev app].
  split; [exists c, (rev (drop_while isSpace (rev t))); split; [reflexivity | exact Hhead] |].
  pose proof (drop_while_head isSpace (rev t)) as Hlast.
  destruct (drop_while isSpace (rev t)) as [|d u].
  - exists [], c. split; [reflexivity | exact Hhead].
  - exists (c :: rev u), d. cbn [rev app]. split; [reflexivity | exact Hlast].
Qed.

Lemma synthetic_trimmed amb : trimmed (synthetic amb).
Proof.
  right. split.
  - eexists _, _. split; [reflexivity | reflexivity].
  - exists (lit "<generated-" ++ decimal (now amb) ++ lit "-" ++ random amb), 62.
    split; [| reflexivity].
    unfold synthetic. rewrite <- !app_assoc. reflexivity.
Qed.

(** X2: without a parser-provided id, the identifier the resolver returns
    carries no white space at either end: it is the synthetic identifier,
    which starts and ends with an angle bracket, or the trimmed capture, or
    the empty string. *)
Theorem extractMessageId_trimmed (amb : Ambient) (parsed : option Parsed)
    (rawText : jsstring) :
  (forall p, parsed = Some p -> messageId p = None) ->
  trimmed (extractMessageId amb parsed rawText).
Proof.
  intros Hp. unfold extractMessageId.
  set (m := first_match _ _).
  assert (Hraw : trimmed match m with
                         | Some m1 => if truthy m1 then trim m1 else synthetic amb
                         | None => synthetic amb
                         end).
  { destruct m as [m1|]; [| apply synthetic_trimmed].
    destruct (truthy m1); [apply trim_trimmed | apply synthetic_trimmed]. }
  destruct parsed as [p|]; [| exact Hraw].
  rewrite (Hp p eq_refl). exact Hraw.
Qed.

Lemma extractMessageId_trimmed_witness :
  trimmed (extractMessageId {| now := 5; random := lit "0.5" |}
             (Some (parseRawEmail Rejected None))
             (lit "Message-ID:   <a@b>   ")).
Proof.
  apply extractMessageId_trimmed.
  intros p [= <-]. reflexivity.
Defined.

(** X3: the identity of a fetched message never comes from the parser: the
    object [parseRawEmail] returns has no message id, so the identity is
    what the resolver finds in the raw text of the message, or the synthetic
    identifier, whatever the parser answered. *)
Theorem messageIdOf_ignores_parser (msg : Fetched) :
  messageIdOf msg
  = extractMessageId (amb_resolve msg) None (rawToText (source msg)).
Proof.
  unfold messageIdOf, extractMessageId.
  rewrite parseRawEmail_no_messageId. reflexivity.
Qed.

End ResolverMore.

(** ** More on the two message pipelines *)

Module PipelineMore.
Import Js Effects MailParser ImapManager Observations EsClientFacts.

Lemma index_requests_app e1 e2 :
  index_requests (e1 ++ e2) = index_requests e1 ++ index_requests e2.
Proof. apply flat_map_app. Qed.

Lemma exists_requests_app e1 e2 :
  exists_requests (e1 ++ e2) = exists_requests e1 ++ exists_requests e2.
Proof. apply flat_map_app. Qed.

(** The requests one message of the backfill makes to the index. *)
Lemma backfillMessage_requests acct m msg :
  exists_requests (backfillMessage acct m msg) = [checkedId acct msg]
  /\ index_requests (backfillMessage acct m msg)
     = if fst (checkExists acct msg) then []
       else [(upsertedId acct m msg, buildDoc acct m msg)].
Proof.
  unfold backfillMessage, checkExists, checkedId, upsertedId,
    EsClient.docExists, EsClient.indexEmail.
  destruct (exists_reply msg) as [[[|]|[|]]|]; cbn [fst snd EsClient.bodyOf];
    destruct (index_reply msg); split; reflexivity.
Qed.

(** X4: the backfill of a mailbox that opens and has matching messages
    checks every fetched message against the index once, in fetch order, and
    upserts exactly the messages the check did not report present, in fetch
    order, one request each.  A message reported present is never
    written. *)
Theorem backfill_upserts_unseen (script : MailboxScript) (acct : Z) (m : jsstring)
    (u : Z) (uids : list Z) :
  open_readonly script = Resolved tt ->
  search_reply script = Resolved (u :: uids) ->
  let fetched := items (fetch_stream script) in
  exists_requests (fetchLast30DaysForMailbox script acct m)
    = map (checkedId acct) fetched
  /\ index_requests (fetchLast30DaysForMailbox script acct m)
     = map (fun msg => (upsertedId acct m msg, buildDoc acct m msg))
           (List.filter (fun msg => negb (fst (checkExists acct msg))) fetched).
Proof.
  intros Hopen Hsearch fetched. unfold fetchLast30DaysForMailbox.
  rewrite Hopen, Hsearch. fold fetched.
  cbn [exists_requests index_requests flat_map app].
  fold (exists_requests (flat_map (backfillMessage acct m) fetched
          ++ match ending (fetch_stream script) with
             | Resolved _ => []
             | Rejected => [Console (ErrorFetchingMailbox m)]
             end)).
  fold (index_requests (flat_map (backfillMessage acct m) fetched
          ++ match ending (fetch_stream script) with
             | Resolved _ => []
             | Rejected => [Console (ErrorFetchingMailbox m)]
             end)).
  rewrite exists_requests_app, index_requests_app.
  assert (Htail : forall e : outcome unit,
            exists_requests match e with
                            | Resolved _ => []
                            | Rejected => [Console (ErrorFetchingMailbox m)]
                            end = []
            /\ index_requests match e with
                              | Resolved _ => []
                              | Rejected => [Console (ErrorFetchingMailbox m)]
                              end = []).
  { intros [|]; split; reflexivity. }
  destruct (Htail (ending (fetch_stream script))) as [-> ->]. rewrite !app_nil_r.
  clear. induction fetched as [|msg rest [IH1 IH2]]; [split; reflexivity |].
  cbn [flat_map map List.filter].
  rewrite exists_requests_app, index_requests_app, IH1, IH2.
  destruct (backfillMessage_requests acct m msg) as [-> ->].
  split; [reflexivity |].
  destruct (fst (checkExists acct msg)); reflexivity.
Qed.

Lemma backfill_upserts_unseen_witness :
  index_requests
    (fetchLast30DaysForMailbox
       {| open_readonly := Resolved tt; search_reply := Resolved [1; 2; 3];
          fetch_stream :=
            {| items := [Examples.demo_message (lit "a") (Resolved true) (Resolved tt);
                         Examples.demo_message (lit "b") Rejected Rejected;
                         Examples.demo_message (lit "c") (Resolved false) (Resolved tt)];
               ending := Rejected |};
          open_readwrite := Rejected |} 7 (lit "INBOX"))
  = map (fun msg => (upsertedId 7 (lit "INBOX") msg, buildDoc 7 (lit "INBOX") msg))
        [Examples.demo_message (lit "b") Rejected Rejected;
         Examples.demo_message (lit "c") (Resolved false) (Resolved tt)].
Proof.
  refine (proj2 (backfill_upserts_unseen _ 7 (lit "INBOX") 1 [2; 3] _ _)).
  - reflexivity.
  - reflexivity.
Defined.

(** X5: for a message whose identity is not empty, the existence check and
    the upsert name the same document, whatever the clock and the random
    source read in between: the account id in decimal, an underscore and the
    encoded message id. *)
Theorem dedup_key_consistent (acct : Z) (m : jsstring) (msg : Fetched) :
  messageIdOf msg <> [] ->
  checkedId acct msg = upsertedId acct m msg
  /\ upsertedId acct m msg
     = decimal acct ++ lit "_" ++ EsClient.encodedMessageId (messageIdOf msg).
Proof.
  intros Hne. unfold checkedId, upsertedId. cbn [buildDoc doc_accountId doc_messageId].
  unfold EsClient.docIdFor. rewrite !or_else_truthy by exact Hne.
  split; reflexivity.
Qed.

Lemma dedup_key_consistent_witness :
  checkedId 7 (Examples.demo_message (lit "Message-ID: <1@x>") Rejected Rejected)
  = upsertedId 7 (lit "INBOX")
      (Examples.demo_message (lit "Message-ID: <1@x>") Rejected Rejected).
Proof.
  refine (proj1 (dedup_key_consistent 7 (lit "INBOX") _ _)).
  vm_compute. discriminate.
Defined.




End PipelineMore.

(** ** More on document ids *)

Module DocIdMore.
Import Js Effects Utf8 EsClient Server CodecFacts EsClientFacts.

(** Decoding inverts the unpadded URL-safe encoding on bytes. *)
Lemma base64url_decode_encode (bs : list Z) :
  Forall is_byte bs -> Base64.decode (Base64.base64url bs) = bs.
Proof.
  unfold Base64.decode, Base64.base64url, is_byte.
  induction bs as [|a|a b|a b c l IH] using list_ind3; intros Hb.
  - reflexivity.
  - apply Forall_cons_1 in Hb as [Ha _].
    cbn [Base64.encode_with app].
    rewrite !digits_digit_char by lia.
    cbn [Base64.digits Base64.bytes_of_digits]. f_equal. lia.
  - apply Forall_cons_1 in Hb as [Ha Hb]. apply Forall_cons_1 in Hb as [Hb _].
    cbn [Base64.encode_with app].
    rewrite !digits_digit_char by lia.
    cbn [Base64.digits Base64.bytes_of_digits]. f_equal; [lia |]. f_equal. lia.
  - apply Forall_cons_1 in Hb as [Ha Hb]. apply Forall_cons_1 in Hb as [Hb Hc].
    apply Forall_cons_1 in Hc as [Hc Hl].
    cbn [Base64.encode_with app].
    rewrite !digits_digit_char by lia.
    cbn [Base64.bytes_of_digits app]. rewrite (IH Hl).
    f_equal; [lia |]. f_equal; [lia |]. f_equal. lia.
Qed.

(** The encoding of message ids loses nothing on well-formed strings. *)
Lemma encodedMessageId_injective (m m' : jsstring) :
  Forall is_code_unit m -> well_formed m = true ->
  Forall is_code_unit m' -> well_formed m' = true ->
  encodedMessageId m = encodedMessageId m' -> m = m'.
Proof.
  intros Hm Wm Hm' Wm' Heq. unfold encodedMessageId in Heq.
  apply (f_equal Base64.decode) in Heq.
  rewrite !base64url_decode_encode in Heq by (apply encode_bytes; assumption).
  apply (f_equal Utf8.decode) in Heq.
  rewrite !decode_encode in Heq by assumption. exact Heq.
Qed.

(** Two texts that agree and whose prefixes before an underscore hold no
    underscore agree on the prefixes and on what follows. *)
Lemma split_at_underscore (a a' x x' : jsstring) :
  includes underscore a = false -> includes underscore a' = false ->
  a ++ lit "_" ++ x = a' ++ lit "_" ++ x' -> a = a' /\ x = x'.
Proof.
  unfold includes, underscore. revert a'.
  induction a as [|c a IH]; intros [|c' a'] Ha Ha' Heq; cbn [existsb app] in *.
  - injection Heq as ->. split; reflexivity.
  - injection Heq as <- _. apply orb_false_elim in Ha' as [Hc _]. discriminate.
  - injection Heq as -> _. apply orb_false_elim in Ha as [Hc _]. discriminate.
  - injection Heq as -> Heq.
    apply orb_false_elim in Ha as [_ Ha]. apply orb_false_elim in Ha' as [_ Ha'].
    destruct (IH a' Ha Ha' Heq) as [-> ->]. split; reflexivity.
Qed.

(** X7: document ids do not collide.  For account ids that hold no
    underscore (the decimal renderings the worker passes are such) and
    message ids that are non-empty well-formed strings, two document ids are
    equal only if the account ids are equal and the message ids are equal,
    whenever they were computed. *)
Theorem docIdFor_injective (amb amb' : Ambient) (a a' m m' : jsstring) :
  includes underscore a = false -> includes underscore a' = false ->
  m <> [] -> m' <> [] ->
  Forall is_code_unit m -> well_formed m = true ->
  Forall is_code_unit m' -> well_formed m' = true ->
  docIdFor amb a m = docIdFor amb' a' m' ->
  a = a' /\ m = m'.
Proof.
  intros Ha Ha' Hne Hne' Hm Wm Hm' Wm' Heq.
  unfold docIdFor in Heq. rewrite !or_else_truthy in Heq by assumption.
  apply split_at_underscore in Heq as [-> Henc]; [| assumption | assumption].
  split; [reflexivity |].
  apply encodedMessageId_injective; assumption.
Qed.

Lemma docIdFor_injective_witness :
  decimal 7 = decimal 7 /\ lit "<1@x>" = lit "<1@x>".
Proof.
  refine (docIdFor_injective {| now := 1; random := lit "0.5" |}
            {| now := 2; random := lit "0.25" |}
            (decimal 7) (decimal 7) (lit "<1@x>") (lit "<1@x>") _ _ _ _ _ _ _ _ _);
    try reflexivity; try discriminate;
    repeat constructor; unfold is_code_unit; simpl; lia.
Defined.

(** *** Decimal renderings *)

Lemma digits_no_underscore (d : Decimal.uint) :
  includes underscore (lit (NilEmpty.string_of_uint d)) = false.
Proof. induction d; cbn; try assumption; reflexivity. Qed.

Lemma rendering_no_underscore (d : Decimal.uint) :
  includes underscore (lit (NilZero.string_of_uint d)) = false.
Proof.
  unfold NilZero.string_of_uint.
  destruct d; try reflexivity;
    match goal with |- context [NilEmpty.string_of_uint ?x] =>
      apply (digits_no_underscore x) end.
Qed.

Lemma decimal_no_underscore (n : Z) : includes underscore (decimal n) = false.
Proof.
  unfold decimal. destruct (Z.to_int n) as [d|d]; cbn [NilZero.string_of_int].
  - apply rendering_no_underscore.
  - change (includes underscore (45 :: lit (NilZero.string_of_uint d)) = false).
    unfold includes. cbn [existsb]. apply rendering_no_underscore.
Qed.

Lemma decimal_truthy (n : Z) : truthy (decimal n) = true.
Proof.
  unfold decimal. destruct (Z.to_int n) as [d|d]; cbn [NilZero.string_of_int].
  - unfold NilZero.string_of_uint. destruct d; reflexivity.
  - reflexivity.
Qed.

Lemma includes_app c (s t : jsstring) :
  includes c (s ++ t) = includes c s || includes c t.
Proof. unfold includes. apply existsb_app. Qed.

(** X8: the lookup of GET /api/emails/:id.  A document id the gateway
    computed always holds an underscore, so it is looked up as it is,
    whether or not the account parameter is given.  A raw message id that is
    not empty and holds no underscore, given with the account in decimal, is
    turned into the very id under which the worker upserted that message.
    A raw message id that holds an underscore is never encoded. *)
Theorem requestedDocId_agrees (amb amb0 : Ambient) (account : option jsstring)
    (a mid : jsstring) (acct : Z) (m : jsstring) (msg : ImapManager.Fetched) :
  requestedDocId amb account (docIdFor amb0 a mid) = docIdFor amb0 a mid
  /\ (ImapManager.messageIdOf msg <> [] ->
      includes underscore (ImapManager.messageIdOf msg) = false ->
      requestedDocId amb (Some (decimal acct)) (ImapManager.messageIdOf msg)
      = Observations.upsertedId acct m msg)
  /\ (includes underscore mid = true -> requestedDocId amb account mid = mid).
Proof.
  split; [| split].
  - unfold requestedDocId. destruct account as [acc|]; [| reflexivity].
    assert (includes underscore (docIdFor amb0 a mid) = true) as ->.
    { unfold docIdFor. rewrite !includes_app. cbn. apply orb_true_r. }
    rewrite andb_false_r. reflexivity.
  - intros Hne Hno. unfold requestedDocId, Observations.upsertedId.
    rewrite decimal_truthy, Hno. cbn [andb negb ImapManager.buildDoc doc_accountId doc_messageId].
    unfold docIdFor. rewrite !or_else_truthy by exact Hne. reflexivity.
  - intros Hyes. unfold requestedDocId. destruct account as [acc|]; [| reflexivity].
    rewrite Hyes, andb_false_r. reflexivity.
Qed.

Lemma requestedDocId_agrees_witness :
  requestedDocId {| now := 9; random := lit "0.1" |} (Some (decimal 7))
    (ImapManager.messageIdOf
       (Examples.demo_message (lit "Message-ID: <1@x>") Rejected Rejected))
  = Observations.upsertedId 7 (lit "INBOX")
      (Examples.demo_message (lit "Message-ID: <1@x>") Rejected Rejected).
Proof.
  refine (proj1 (proj2 (requestedDocId_agrees _ {| now := 0; random := [] |} None
                          [] [] 7 (lit "INBOX") _)) _ _).
  - vm_compute. discriminate.
  - vm_compute. reflexivity.
Defined.

End DocIdMore.

(** ** Document ids against the standards *)

Module DocIdFacts.
Import Js Effects Utf8 EsClient CodecFacts EsClientFacts DocIdMore.

(** A property of the integers below [n] follows from its instances. *)
Lemma small_cases (P : Z -> Prop) (n : nat) :
  Forall P (map Z.of_nat (seq 0 n)) -> forall x, 0 <= x < Z.of_nat n -> P x.
Proof.
  intros H x Hx. rewrite Forall_forall in H. apply H.
  replace x with (Z.of_nat (Z.to_nat x)) by lia.
  apply list_elem_of_fmap_2. apply list_elem_of_In. apply in_seq. lia.
Qed.

Lemma letter_digit_char (v : Z) :
  0 <= v < 64 -> Rfc.letter v = Base64.digit_char true v.
Proof.
  apply (small_cases (fun v => Rfc.letter v = Base64.digit_char true v) 64).
  vm_compute. repeat constructor.
Qed.

Lemma lor_lead (lead : Z) (n : nat) :
  Forall (fun x => Z.lor lead x = lead + x) (map Z.of_nat (seq 0 n)) ->
  forall x, 0 <= x < Z.of_nat n -> Z.lor lead x = lead + x.
Proof. apply small_cases. Qed.

Lemma lor_80 x : 0 <= x < 64 -> Z.lor 0x80 x = 128 + x.
Proof. apply (lor_lead 0x80 64). vm_compute. repeat constructor. Qed.
Lemma lor_C0 x : 0 <= x < 32 -> Z.lor 0xC0 x = 192 + x.
Proof. apply (lor_lead 0xC0 32). vm_compute. repeat constructor. Qed.
Lemma lor_E0 x : 0 <= x < 16 -> Z.lor 0xE0 x = 224 + x.
Proof. apply (lor_lead 0xE0 16). vm_compute. repeat constructor. Qed.
Lemma lor_F0 x : 0 <= x < 8 -> Z.lor 0xF0 x = 240 + x.
Proof. apply (lor_lead 0xF0 8). vm_compute. repeat constructor. Qed.

Lemma land_low6 (u : Z) : Z.land u 0x3F = u mod 64.
Proof. change 0x3F with (Z.ones 6). rewrite Z.land_ones by lia. reflexivity. Qed.

Lemma shiftr_div (u : Z) (n : Z) : 0 <= n -> Z.shiftr u n = u / 2 ^ n.
Proof. intros Hn. apply Z.shiftr_div_pow2. exact Hn. Qed.

Lemma octets_1 u : 0 <= u < 128 -> Rfc.octets u = [u].
Proof. intros H. unfold Rfc.octets. comparisons. reflexivity. Qed.

Lemma octets_2 u : 128 <= u < 2048 -> Rfc.octets u = [192 + u / 64; 128 + u mod 64].
Proof.
  intros H. unfold Rfc.octets. comparisons.
  rewrite land_low6, (shiftr_div u 6) by lia. change (2 ^ 6) with 64.
  rewrite lor_C0, lor_80 by lia. reflexivity.
Qed.

Lemma octets_3 u : 2048 <= u < 65536 -> Rfc.octets u = encode3 u.
Proof.
  intros H. unfold Rfc.octets, encode3. comparisons.
  rewrite !land_low6, (shiftr_div u 6), (shiftr_div u 12) by lia. change (2 ^ 6) with 64. change (2 ^ 12) with 4096.
  rewrite lor_E0, !lor_80 by lia. reflexivity.
Qed.

Lemma octets_4 u : 65536 <= u < 1114112 -> Rfc.octets u = encode4 u.
Proof.
  intros H. unfold Rfc.octets, encode4. comparisons.
  rewrite !land_low6, (shiftr_div u 6), (shiftr_div u 12), (shiftr_div u 18) by lia.
  change (2 ^ 6) with 64. change (2 ^ 12) with 4096. change (2 ^ 18) with 262144.
  rewrite lor_F0, !lor_80 by lia. reflexivity.
Qed.

Lemma octets_replacement : Rfc.octets 0xFFFD = replacement_bytes.
Proof. reflexivity. Qed.

(** The encoder of the runtime produces the octets RFC 3629 assigns to the
    scalar values of the string. *)
Lemma encode_utf8 (s : jsstring) :
  Forall is_code_unit s -> encode s = Rfc.utf8 s.
Proof.
  unfold Rfc.utf8.
  induction s as [|c rest IH IH2] using list_ind_pairs; intros Hs; [reflexivity |].
  apply Forall_cons_1 in Hs as [Hc Hrest]. specialize (IH Hrest).
  pose proof Hc as Hrange. unfold is_code_unit in Hrange.
  cbn [encode Rfc.scalars].
  change ((55296 <=? c) && (c <=? 56319)) with (isHighSurrogate c).
  change ((56320 <=? c) && (c <=? 57343)) with (isLowSurrogate c).
  destruct (surrogate_cases c Hc) as [(H1 & Hh & Hl)|[(H1 & Hh & Hl)|[(H1 & Hh & Hl)|[(H1 & Hh & Hl)|(H1 & Hh & Hl)]]]];
    rewrite ?Hh, ?Hl; comparisons; cbn [flat_map].
  - rewrite octets_1 by lia. rewrite IH. reflexivity.
  - rewrite octets_2 by lia. rewrite IH. reflexivity.
  - destruct rest as [|d rest']; [reflexivity |].
    apply Forall_cons_1 in Hrest as [Hd Hrest'].
    change ((56320 <=? d) && (d <=? 57343)) with (isLowSurrogate d).
    destruct (isLowSurrogate d) eqn:Hld; cbn [flat_map].
    + rewrite (IH2 d rest' eq_refl Hrest').
      unfold isHighSurrogate, isLowSurrogate in Hh, Hld.
      apply andb_prop in Hh as [Hh1 Hh2]. apply andb_prop in Hld as [Hd1 Hd2].
      apply Z.leb_le in Hh1, Hh2, Hd1, Hd2.
      rewrite octets_4 by lia. reflexivity.
    + rewrite IH. reflexivity.
  - rewrite IH. reflexivity.
  - rewrite octets_3 by lia. rewrite IH. reflexivity.
Qed.

(** The unpadded URL-safe encoder of the runtime produces the text RFC 4648
    assigns to the bytes. *)
Lemma base64url_rfc (bs : list Z) :
  Forall is_byte bs -> Base64.base64url bs = Rfc.base64url bs.
Proof.
  unfold Base64.base64url, is_byte.
  induction bs as [|a|a b|a b c l IH] using list_ind3; intros Hb;
    cbn [Base64.encode_with Rfc.base64url app].
  - reflexivity.
  - apply Forall_cons_1 in Hb as [Ha _].
    rewrite !letter_digit_char by lia. repeat (f_equal; try lia).
  - apply Forall_cons_1 in Hb as [Ha Hb]. apply Forall_cons_1 in Hb as [Hb _].
    rewrite !letter_digit_char by lia. repeat (f_equal; try lia).
  - apply Forall_cons_1 in Hb as [Ha Hb]. apply Forall_cons_1 in Hb as [Hb Hc].
    apply Forall_cons_1 in Hc as [Hc Hl].
    rewrite !letter_digit_char by lia. rewrite (IH Hl). repeat (f_equal; try lia).
Qed.

Lemma lit_code_units (s : string) : Forall is_code_unit (lit s).
Proof.
  unfold lit. induction s as [|a s IH]; cbn [list_ascii_of_string map]; constructor.
  - unfold is_code_unit. pose proof (N_ascii_bounded a). lia.
  - exact IH.
Qed.

Lemma decimal_code_units (n : Z) : Forall is_code_unit (decimal n).
Proof. apply lit_code_units. Qed.

Lemma octets_nonempty (u : Z) : Rfc.octets u <> [].
Proof.
  unfold Rfc.octets.
  destruct (u <=? 127); [discriminate |].
  destruct (u <=? 2047); [discriminate |].
  destruct (u <=? 65535); discriminate.
Qed.

Lemma utf8_nonempty (s : jsstring) : s <> [] -> Rfc.utf8 s <> [].
Proof.
  unfold Rfc.utf8. destruct s as [|c rest]; [congruence |]. intros _.
  cbn [Rfc.scalars].
  assert (Hcons : forall u us (l : list Z), flat_map Rfc.octets (u :: us) <> []).
  { intros u us _. cbn [flat_map]. pose proof (octets_nonempty u).
    destruct (Rfc.octets u); [congruence | discriminate]. }
  destruct ((55296 <=? c) && (c <=? 56319)).
  - destruct rest as [|d rest']; [apply (Hcons _ [] []) |].
    destruct ((56320 <=? d) && (d <=? 57343)); apply (Hcons _ _ []).
  - destruct ((56320 <=? c) && (c <=? 57343)); apply (Hcons _ _ []).
Qed.

Lemma base64url_nonempty (bs : list Z) : bs <> [] -> Rfc.base64url bs <> [].
Proof. destruct bs as [|a [|b [|c rest]]]; [congruence | discriminate ..]. Qed.

(** C5: for a message id that is not empty, the document id is the one
    the specification words: the account id, an underscore, and the
    unpadded URL-safe base64 text, after RFC 4648, of the UTF-8 octets, after
    RFC 3629, of the message id.  It does not depend on the clock or on the
    random source, so two calls agree.  The encoded text is made of letters,
    digits, hyphens and underscores only; decoding it gives the octets back,
    and for a well-formed message id the octets decode to the message id.
    For the empty message id what is encoded is the text made of the
    timestamp in decimal, a hyphen and the random number, so the encoded
    part is never empty, as it would be for the empty string. *)
Theorem docIdFor_deterministic (amb amb' : Ambient) (accountId messageId : jsstring) :
  Forall is_code_unit messageId -> messageId <> [] ->
  docIdFor amb accountId messageId = Rfc.documentId accountId messageId
  /\ docIdFor amb' accountId messageId = docIdFor amb accountId messageId
  /\ Forall (fun c => Base64.url_safe c = true) (Rfc.base64url (Rfc.utf8 messageId))
  /\ Base64.decode (Rfc.base64url (Rfc.utf8 messageId)) = Rfc.utf8 messageId
  /\ (well_formed messageId = true -> Utf8.decode (Rfc.utf8 messageId) = messageId)
  /\ (Forall is_code_unit (random amb) ->
      docIdFor amb accountId []
      = Rfc.documentId accountId (decimal (now amb) ++ lit "-" ++ random amb)
      /\ (exists encoded,
            docIdFor amb accountId [] = accountId ++ lit "_" ++ encoded
            /\ truthy encoded = true)
      /\ Rfc.documentId accountId [] = accountId ++ lit "_").
Proof.
  intros Hcu Hne.
  assert (Hid : forall m, Forall is_code_unit m ->
            accountId ++ lit "_" ++ encodedMessageId m = Rfc.documentId accountId m).
  { intros m Hm. unfold encodedMessageId, Rfc.documentId.
    rewrite (base64url_rfc _ (encode_bytes m Hm)), (encode_utf8 m Hm). reflexivity. }
  pose proof (encode_bytes messageId Hcu) as Hbytes.
  rewrite (encode_utf8 messageId Hcu) in Hbytes.
  unfold docIdFor. rewrite !or_else_truthy by exact Hne.
  split; [apply Hid; exact Hcu |]. split; [reflexivity |]. split.
  { rewrite <- (base64url_rfc _ Hbytes). apply base64url_url_safe. exact Hbytes. }
  split.
  { rewrite <- (base64url_rfc _ Hbytes). apply base64url_decode_encode. exact Hbytes. }
  split.
  { intros Hwf. rewrite <- (encode_utf8 messageId Hcu). apply decode_encode; assumption. }
  intros Hrandom.
  assert (Hph : Forall is_code_unit (decimal (now amb) ++ lit "-" ++ random amb)).
  { apply Forall_app. split; [apply decimal_code_units |].
    apply Forall_app. split; [apply lit_code_units | exact Hrandom]. }
  assert (Hphne : decimal (now amb) ++ lit "-" ++ random amb <> []).
  { pose proof (decimal_truthy (now amb)) as Ht.
    destruct (decimal (now amb)); [discriminate | discriminate]. }
  cbn [or_else truthy]. fold (placeholder amb). unfold placeholder.
  split; [apply Hid; exact Hph |]. split; [| reflexivity].
  exists (encodedMessageId (decimal (now amb) ++ lit "-" ++ random amb)).
  split; [reflexivity |].
  unfold encodedMessageId.
  rewrite (base64url_rfc _ (encode_bytes _ Hph)), (encode_utf8 _ Hph).
  pose proof (base64url_nonempty _ (utf8_nonempty _ Hphne)) as Hb.
  destruct (Rfc.base64url _); [congruence | reflexivity].
Qed.

Lemma docIdFor_deterministic_witness :
  docIdFor {| now := 0; random := lit "0.5" |} (lit "7") [60; 233; 64; 120; 62]
  = lit "7_PMOpQHg-"
  /\ docIdFor {| now := 1; random := lit "0.25" |} (lit "7") [60; 233; 64; 120; 62]
     = docIdFor {| now := 0; random := lit "0.5" |} (lit "7") [60; 233; 64; 120; 62]
  /\ docIdFor {| now := 1700000000000; random := lit "0.5" |} (lit "7") []
     = lit "7_MTcwMDAwMDAwMDAwMC0wLjU".
Proof.
  destruct (docIdFor_deterministic
              {| now := 1700000000000; random := lit "0.5" |}
              {| now := 1; random := lit "0.25" |}
              (lit "7") [60; 233; 64; 120; 62]) as (H1 & H2 & _ & _ & _ & H3).
  - repeat constructor; unfold is_code_unit; lia.
  - discriminate.
  - destruct H3 as (H3 & _).
    { apply lit_code_units. }
    split; [| split].
    + exact H1.
    + reflexivity.
    + rewrite H3. reflexivity.
Defined.
End DocIdFacts.

(** ** More on the reconnect state machine *)

Module BackoffMore.
Import Js Effects ImapManager Observations WorkerFacts.

Lemma backoff_bounds (n : Z) : 1 <= n -> 2000 <= backoff n <= 30000.
Proof.
  intros Hn. unfold backoff.
  assert (2 ^ 1 <= 2 ^ n) by (apply Z.pow_le_mono_r; lia).
  change (2 ^ 1) with 2 in *. lia.
Qed.

Lemma backoff_saturates (n : Z) : 5 <= n -> backoff n = 30000.
Proof.
  intros Hn. unfold backoff.
  assert (2 ^ 5 <= 2 ^ n) by (apply Z.pow_le_mono_r; lia).
  change (2 ^ 5) with 32 in *. lia.
Qed.

Lemma backoff_monotone (n n' : Z) : 0 <= n <= n' -> backoff n <= backoff n'.
Proof.
  intros Hn. unfold backoff.
  assert (2 ^ n <= 2 ^ n') by (apply Z.pow_le_mono_r; lia). lia.
Qed.

Lemma bounded_app e1 e2 : bounded e1 -> bounded e2 -> bounded (e1 ++ e2).
Proof.
  unfold bounded. intros H1 H2. rewrite delays_app. apply Forall_app. split; assumption.
Qed.

Lemma bounded_quiet eff : quiet eff -> bounded eff.
Proof. unfold bounded. intros Hq. rewrite (quiet_delays eff Hq). constructor. Qed.

Lemma retryConnect_bounded (w : Worker) :
  0 <= reconnectAttempts w ->
  0 <= reconnectAttempts (fst (retryConnect w)) /\ bounded (snd (retryConnect w)).
Proof.
  intros Hn. unfold retryConnect. destruct (shuttingDown w); cbn [fst snd].
  - split; [exact Hn | constructor].
  - split; [simpl; lia |]. unfold bounded. cbn.
    constructor; [apply backoff_bounds; lia | constructor].
Qed.

Lemma lostListener_bounded line (w : Worker) :
  0 <= reconnectAttempts w ->
  0 <= reconnectAttempts (fst (lostListener line w))
  /\ bounded (snd (lostListener line w)).
Proof.
  intros Hn. unfold lostListener.
  destruct (shuttingDown (set_connected false w)) eqn:Hs.
  - cbn. split; [exact Hn | constructor].
  - pose proof (retryConnect_bounded (set_connected false w) Hn) as [H1 H2].
    destruct (retryConnect (set_connected false w)) as [w2 eff]. cbn [fst snd] in *.
    split; [exact H1 |]. unfold bounded in *. exact H2.
Qed.

Lemma emit_bounded listener :
  (forall w, 0 <= reconnectAttempts w ->
             0 <= reconnectAttempts (fst (listener w)) /\ bounded (snd (listener w))) ->
  forall n w, 0 <= reconnectAttempts w ->
    0 <= reconnectAttempts (fst (emit n listener w)) /\ bounded (snd (emit n listener w)).
Proof.
  intros Hl. induction n as [|n IH]; intros w Hw; cbn [emit].
  - split; [exact Hw | constructor].
  - destruct (Hl w Hw) as [H1 Hb1]. destruct (listener w) as [w1 eff1].
    destruct (IH w1 H1) as [H2 Hb2]. destruct (emit n listener w1) as [w2 eff2].
    cbn [fst snd] in *. split; [exact H2 | apply bounded_app; assumption].
Qed.

Lemma callback_bounded (cb : Callback) (w : Worker) :
  0 <= reconnectAttempts w ->
  0 <= reconnectAttempts (fst (callback cb w)) /\ bounded (snd (callback cb w)).
Proof.
  intros Hn. destruct cb as [|[s|]| | | |scripts|t]; cbn [callback].
  - unfold timerFired, connectAndListen. destruct (shuttingDown w); cbn [fst snd].
    + split; [exact Hn | constructor].
    + split; [exact Hn | constructor].
  - destruct (connectSettled_resolved s w) as (H0 & _ & Hq).
    split; [rewrite H0; lia | apply bounded_quiet; exact Hq].
  - unfold connectSettled.
    pose proof (retryConnect_bounded (set_connected false w) Hn) as [H1 H2].
    destruct (retryConnect (set_connected false w)) as [w1 eff]. cbn [fst snd] in *.
    split; [exact H1 | exact H2].
  - apply emit_bounded; [| exact Hn]. intros w'. apply lostListener_bounded.
  - apply emit_bounded; [| exact Hn]. intros w'. apply lostListener_bounded.
  - apply emit_bounded; [| exact Hn]. intros w' Hw'. split; [exact Hw' | constructor].
  - pose proof (emitExists_quiet scripts 0 (onExists (client w))) as Hq.
    destruct (emitExists scripts 0 (onExists (client w))) as [calls eff].
    split; [exact Hn |]. apply bounded_quiet. exact Hq.
  - pose proof (existsResumed_quiet t w) as Hq.
    destruct (existsResumed_worker t w) as (calls & Hw & _). rewrite Hw.
    split; [exact Hn |]. apply bounded_quiet. exact Hq.
Qed.

(** *** Every worker of the system *)

Lemma all_delays_app t1 t2 : all_delays (t1 ++ t2) = all_delays t1 ++ all_delays t2.
Proof. unfold all_delays. rewrite map_app. apply delays_app. Qed.

Lemma all_delays_tagged r eff : all_delays (map (pair r) eff) = delays eff.
Proof.
  unfold all_delays. rewrite map_map. cbn [snd]. rewrite map_id. reflexivity.
Qed.

Lemma on_worker_bounded r f sys :
  (forall w, 0 <= reconnectAttempts w ->
             0 <= reconnectAttempts (fst (f w)) /\ bounded (snd (f w))) ->
  counters_ok sys ->
  counters_ok (fst (on_worker r f sys))
  /\ Forall (fun d => 2000 <= d <= 30000) (all_delays (snd (on_worker r f sys))).
Proof.
  intros Hf Hok. unfold on_worker.
  destruct (heap sys !! r) as [w|] eqn:Hr; [| split; [exact Hok | constructor]].
  assert (Hw : 0 <= reconnectAttempts w).
  { unfold counters_ok in Hok. rewrite Forall_forall in Hok. apply Hok.
    eapply list_elem_of_lookup_2. exact Hr. }
  destruct (Hf w Hw) as [H1 H2]. destruct (f w) as [w' eff]. cbn [fst snd] in *.
  split.
  - unfold counters_ok. simpl. apply Forall_insert; assumption.
  - rewrite all_delays_tagged. exact H2.
Qed.

Lemma step_bounded (e : Event) (sys : System) :
  counters_ok sys ->
  counters_ok (fst (step e sys))
  /\ Forall (fun d => 2000 <= d <= 30000) (all_delays (snd (step e sys))).
Proof.
  intros Hok. destruct e as [a|k|k r logout|r cb]; cbn [step].
  - unfold startWorkerForAccount. destruct (workers sys !! id a) as [r|].
    + split; [exact Hok | constructor].
    + cbn [connectAndListen newWorker shuttingDown fst snd]. split.
      * unfold counters_ok. simpl. apply Forall_app. split; [exact Hok |].
        constructor; [simpl; lia | constructor].
      * constructor.
  - unfold stopRequested. destruct (workers sys !! k) as [r|].
    + apply on_worker_bounded; [| exact Hok].
      intros w Hw. split; [exact Hw | constructor].
    + split; [exact Hok | constructor].
  - cbn [stopSettled fst snd]. split; [exact Hok |].
    rewrite all_delays_tagged. destruct logout; constructor.
  - apply on_worker_bounded; [| exact Hok]. intros w. apply callback_bounded.
Qed.

Lemma run_bounded (es : list Event) (sys : System) :
  counters_ok sys ->
  counters_ok (fst (run es sys))
  /\ Forall (fun d => 2000 <= d <= 30000) (all_delays (snd (run es sys))).
Proof.
  revert sys. induction es as [|e es IH]; intros sys Hok; cbn [run].
  - split; [exact Hok | constructor].
  - destruct (step_bounded e sys Hok) as [H1 Hb1]. destruct (step e sys) as [sys1 tr1].
    destruct (IH sys1 H1) as [H2 Hb2]. destruct (run es sys1) as [sys2 tr2].
    cbn [fst snd] in *. split; [exact H2 |].
    rewrite all_delays_app. apply Forall_app. split; assumption.
Qed.

(** X9: whatever the backend runs, in whatever order, every reconnect timer
    any worker sets has a delay between 2000 and 30000 milliseconds.  The
    delay never decreases as the count of failures grows, and from the fifth
    failure in a row on it is 30000. *)
Theorem reconnect_delay_bounds (history : list Event) :
  Forall (fun d => 2000 <= d <= 30000) (all_delays (snd (run history initial)))
  /\ (forall n n', 0 <= n <= n' -> backoff n <= backoff n')
  /\ (forall n, 5 <= n -> backoff n = 30000).
Proof.
  split; [| split].
  - apply run_bounded. constructor.
  - apply backoff_monotone.
  - apply backoff_saturates.
Qed.

(** *** Listeners for the loss of the connection *)






End BackoffMore.

(** ** The reconnect backoff *)

Module ReconnectFacts.
Import Js Effects ImapManager Examples Observations WorkerFacts ShutdownFacts BackoffMore.














End ReconnectFacts.

(** ** Credentials from the control plane to the worker *)

Module CredentialsMore.
Import Js Utf8 Crypto Credentials Examples CodecFacts CryptoFacts.

Section Scheme.

Variable sha256 : list Z -> list Z.
Variable gcm_seal : list Z -> list Z -> list Z -> list Z * list Z.
Variable gcm_open : list Z -> list Z -> list Z -> list Z -> option (list Z).

Hypothesis seal_bytes : forall key iv plain,
  Forall is_byte plain ->
  Forall is_byte (fst (gcm_seal key iv plain))
  /\ Forall is_byte (snd (gcm_seal key iv plain))
  /\ length (snd (gcm_seal key iv plain)) = 16%nat.

Hypothesis open_seal : forall key iv plain,
  Forall is_byte plain ->
  gcm_open key iv (snd (gcm_seal key iv plain)) (fst (gcm_seal key iv plain))
  = Some plain.

(** X11: the password the worker connects with is the password that was
    submitted.  Whether the master key is configured or not, what
    [startWorkerForAccount] makes of the value POST /api/accounts stored is
    the submitted password, for every password that is a well-formed string.
    Without a master key the value stored is the password itself, in the
    clear; with one, a stored value that fails to decrypt is used as it
    is. *)
Theorem password_reaches_worker (MASTER_KEY : option jsstring) (iv : list Z)
    (password : jsstring) :
  length iv = 12%nat -> Forall is_byte iv ->
  Forall is_code_unit password -> well_formed password = true ->
  passwordPlain sha256 gcm_open MASTER_KEY
    (passwordToStore sha256 gcm_seal MASTER_KEY iv password) = password
  /\ (env_set MASTER_KEY = false ->
      passwordToStore sha256 gcm_seal MASTER_KEY iv password = password)
  /\ (forall stored e,
        decryptString sha256 gcm_open MASTER_KEY stored = inl e ->
        passwordPlain sha256 gcm_open MASTER_KEY stored = stored).
Proof.
  intros Hiv Biv Hcu Hwf. split; [| split].
  - unfold passwordPlain, passwordToStore.
    destruct (env_set MASTER_KEY) eqn:Henv; [| reflexivity].
    destruct MASTER_KEY as [secret|]; [| discriminate]. cbn [env_set] in Henv.
    destruct (roundtrip_transcoded sha256 gcm_seal gcm_open seal_bytes open_seal
                secret iv password Henv Hiv Biv Hcu) as (token & -> & ->).
    apply decode_encode; assumption.
  - intros Henv. unfold passwordToStore. rewrite Henv. reflexivity.
  - intros stored e Hrej. unfold passwordPlain. rewrite Hrej.
    destruct (env_set MASTER_KEY); reflexivity.
Qed.

End Scheme.

Lemma password_reaches_worker_witness :
  passwordPlain demo_sha256 demo_open (Some (lit "k"))
    (passwordToStore demo_sha256 demo_seal (Some (lit "k")) (repeat 3 12) (lit "s3cret"))
  = lit "s3cret".
Proof.
  refine (proj1 (password_reaches_worker demo_sha256 demo_seal demo_open
                   demo_seal_bytes demo_open_seal (Some (lit "k")) (repeat 3 12)
                   (lit "s3cret") _ _ _ _)).
  - reflexivity.
  - repeat constructor; unfold is_byte; lia.
  - repeat constructor; unfold is_code_unit; simpl; lia.
  - reflexivity.
Defined.

End CredentialsMore.

(** ** The search query *)

Module QueryMore.
Import Js Server.

Lemma clause_if_length p mk :
  length (clause_if p mk) = match given p with Some _ => 1%nat | None => 0%nat end.
Proof. unfold clause_if. destruct (given p); reflexivity. Qed.

(** X12: the query of GET /api/emails.  It is match-all exactly when none of
    the six parameters is present with a non-empty value; otherwise it is a
    conjunction that is never empty and has at most five clauses, the two
    dates sharing one range clause. *)
Theorem buildQuery_cases (p : SearchParams) :
  (buildQuery p = MatchAll <->
   given (q p) = None /\ given (account p) = None /\ given (folder p) = None
   /\ given (label p) = None /\ given (fromDate p) = None /\ given (toDate p) = None)
  /\ (forall must, buildQuery p = BoolMust must ->
        must = mustClauses p /\ (1 <= length must <= 5)%nat).
Proof.
  unfold buildQuery, mustClauses, clause_if. split.
  - destruct (given (q p)), (given (account p)), (given (folder p)),
      (given (label p)), (given (fromDate p)), (given (toDate p));
      cbn [app]; split; intros H; try discriminate;
      try (repeat split; reflexivity);
      try (destruct H as (H1 & H2 & H3 & H4 & H5 & H6); discriminate).
  - intros must.
    destruct (given (q p)), (given (account p)), (given (folder p)),
      (given (label p)), (given (fromDate p)), (given (toDate p));
      cbn [app]; intros H; try discriminate; injection H as <-;
      (split; [reflexivity | cbn [length]; lia]).
Qed.

End QueryMore.

(** ** Starting and stopping through the registry *)

Module RegistryMore.
Import Js Effects ImapManager Startup Examples ShutdownFacts.

Lemma start_keeps (a : AccountRow) (sys : System) (k : Z) (r : nat) :
  workers sys !! k = Some r ->
  workers (fst (startWorkerForAccount a sys)) !! k = Some r.
Proof.
  intros Hk. unfold startWorkerForAccount.
  destruct (workers sys !! id a) as [r0|] eqn:Ha; cbn [fst]; [exact Hk |].
  cbn [connectAndListen newWorker shuttingDown fst workers].
  rewrite lookup_insert_ne; [exact Hk |]. intros Heq. rewrite Heq in Ha. congruence.
Qed.

Lemma start_other (a : AccountRow) (sys : System) (k : Z) :
  id a <> k ->
  workers (fst (startWorkerForAccount a sys)) !! k = workers sys !! k.
Proof.
  intros Hne. unfold startWorkerForAccount.
  destruct (workers sys !! id a) as [r0|]; cbn [fst]; [reflexivity |].
  cbn [connectAndListen newWorker shuttingDown fst workers].
  apply lookup_insert_ne. exact Hne.
Qed.

Lemma startEach_keeps (l : list AccountRow) : forall sys k r,
  workers sys !! k = Some r -> workers (fst (startEach l sys)) !! k = Some r.
Proof.
  induction l as [|a l IH]; intros sys k r Hk; cbn [startEach]; [exact Hk |].
  pose proof (start_keeps a sys k r Hk) as H1.
  destruct (startWorkerForAccount a sys) as [sys1 tr1].
  specialize (IH sys1 k r H1). destruct (startEach l sys1) as [sys2 tr2]. exact IH.
Qed.

Lemma startEach_registers (l : list AccountRow) : forall sys a,
  In a l -> is_Some (workers (fst (startEach l sys)) !! id a).
Proof.
  induction l as [|a0 l IH]; intros sys a Hin; [destruct Hin |].
  cbn [startEach].
  pose proof (startWorkerForAccount_registers a0 sys) as H1.
  destruct (startWorkerForAccount a0 sys) as [sys1 tr1]. cbn [fst] in H1.
  destruct Hin as [->|Hin].
  - destruct H1 as [r Hr]. pose proof (startEach_keeps l sys1 _ r Hr) as H2.
    destruct (startEach l sys1) as [sys2 tr2]. eexists; exact H2.
  - specialize (IH sys1 a Hin). destruct (startEach l sys1) as [sys2 tr2]. exact IH.
Qed.

Lemma startEach_other (l : list AccountRow) : forall sys k,
  (forall a, In a l -> id a <> k) ->
  workers (fst (startEach l sys)) !! k = workers sys !! k.
Proof.
  induction l as [|a0 l IH]; intros sys k Hne; cbn [startEach]; [reflexivity |].
  pose proof (start_other a0 sys k (Hne a0 (or_introl eq_refl))) as H1.
  destruct (startWorkerForAccount a0 sys) as [sys1 tr1]. cbn [fst] in H1.
  specialize (IH sys1 k (fun a Ha => Hne a (or_intror Ha))).
  destruct (startEach l sys1) as [sys2 tr2]. cbn [fst] in *. congruence.
Qed.

Lemma startEach_registered (l : list AccountRow) (sys : System) :
  (forall a, In a l -> is_Some (workers sys !! id a)) ->
  fst (startEach l sys) = sys
  /\ Forall (fun x => exists k, snd x = Console (WorkerAlreadyRunning k))
            (snd (startEach l sys)).
Proof.
  induction l as [|a l IH]; intros Hall; cbn [startEach]; [split; [reflexivity | constructor] |].
  destruct (Hall a (or_introl eq_refl)) as [r Hr].
  rewrite (startWorkerForAccount_registered a r sys Hr).
  destruct (IH (fun a' Ha => Hall a' (or_intror Ha))) as [H1 H2].
  destruct (startEach l sys) as [sys2 tr2]. cbn [fst snd] in *. subst sys2.
  split; [reflexivity |]. constructor; [eexists; reflexivity | exact H2].
Qed.

(** X13: starting every enabled account.  After [startAllWorkers], every
    enabled row of the table has its id registered; an id that was
    registered before keeps the worker it had; an id that was not registered
    and belongs to no enabled row is still not registered.  Running it a
    second time changes nothing and only logs that the workers are already
    running. *)
Theorem startAllWorkers_registers_enabled (table : list AccountRow) (sys : System) :
  let started := fst (startAllWorkers table sys) in
  (forall a, In a table -> enabled a = true -> is_Some (workers started !! id a))
  /\ (forall k r, workers sys !! k = Some r -> workers started !! k = Some r)
  /\ (forall k, (forall a, In a table -> enabled a = true -> id a <> k) ->
               workers started !! k = workers sys !! k)
  /\ fst (startAllWorkers table started) = started
  /\ Forall (fun x => exists k, snd x = Console (WorkerAlreadyRunning k))
            (snd (startAllWorkers table started)).
Proof.
  intros started. unfold startAllWorkers, findEnabled in *.
  assert (Hin : forall a, In a (List.filter enabled table)
                          <-> In a table /\ enabled a = true)
    by (intros a; apply filter_In).
  split; [| split; [| split]].
  - intros a Ha He. apply startEach_registers. apply Hin. split; assumption.
  - intros k r. apply startEach_keeps.
  - intros k Hne. apply startEach_other. intros a Ha. apply Hin in Ha as [Ha He].
    exact (Hne a Ha He).
  - apply startEach_registered. intros a Ha. apply startEach_registers. exact Ha.
Qed.

Lemma startAllWorkers_registers_enabled_witness :
  is_Some (workers (fst (startAllWorkers [demo_account] initial)) !! 7).
Proof.
  refine (proj1 (startAllWorkers_registers_enabled [demo_account] initial)
            demo_account _ _).
  - left. reflexivity.
  - reflexivity.
Defined.

Lemma run_cons (e : Event) (es : list Event) (sys : System) :
  fst (run (e :: es) sys) = fst (run es (fst (step e sys)))
  /\ snd (run (e :: es) sys) = snd (step e sys) ++ snd (run es (fst (step e sys))).
Proof.
  cbn [run]. destruct (step e sys) as [s1 t1]. cbn [fst snd].
  destruct (run es s1) as [s2 t2]. split; reflexivity.
Qed.

Lemma stopRequested_state (k : Z) (r : nat) (w0 : Worker) (sys : System) :
  workers sys !! k = Some r -> heap sys !! r = Some w0 ->
  fst (step (StopRequested k) sys)
  = {| workers := workers sys;
       heap := <[r := set_shuttingDown true w0]> (heap sys) |}.
Proof.
  intros Hk Hr. cbn [step]. unfold stopRequested, on_worker.
  rewrite Hk, Hr. reflexivity.
Qed.

(** X14: two overlapping stops can strand a worker.  Let stop be requested
    twice for a registered account before either logout settles, let the
    first settle, let the account be started again, and let the second
    settle.  The second stop then deletes the registry entry of the worker
    that was just started without setting its shutting-down flag: the
    account is no longer registered, yet its new worker has begun to connect
    and is not shutting down, and a further start creates one more worker
    for the same account. *)
Theorem overlapping_stops_strand_worker (history : list Event) (a : AccountRow)
    (r : nat) (logout1 logout2 : outcome unit) :
  let sys := fst (run history initial) in
  workers sys !! id a = Some r ->
  let interleaving :=
    [StopRequested (id a); StopRequested (id a); StopSettled (id a) r logout1;
     Start a; StopSettled (id a) r logout2] in
  let final := fst (run interleaving sys) in
  let fresh := length (heap sys) in
  workers final !! id a = None
  /\ heap final !! fresh = Some (newWorker a)
  /\ fresh <> r
  /\ In (fresh, ImapConnect) (snd (run interleaving sys))
  /\ workers (fst (startWorkerForAccount a final)) !! id a = Some (S fresh).
Proof.
  intros sys Hk interleaving final fresh.
  destruct (reachable_registered_ok history _ _ Hk) as (w0 & Hr & _). fold sys in Hr.
  assert (Hlt : (r < length (heap sys))%nat) by (eapply lookup_lt_Some; exact Hr).
  set (stopped1 := {| workers := workers sys;
                      heap := <[r := set_shuttingDown true w0]> (heap sys) |}).
  assert (H1 : fst (step (StopRequested (id a)) sys) = stopped1)
    by (apply stopRequested_state; assumption).
  assert (H2 : fst (step (StopRequested (id a)) stopped1) = stopped1).
  { rewrite (stopRequested_state (id a) r (set_shuttingDown true w0) stopped1 Hk).
    - subst stopped1. cbn [workers heap]. rewrite list_insert_insert_eq. reflexivity.
    - subst stopped1. cbn [heap]. apply list_lookup_insert_eq. exact Hlt. }
  set (deleted := {| workers := delete (id a) (workers sys); heap := heap stopped1 |}).
  assert (H3 : fst (step (StopSettled (id a) r logout1) stopped1) = deleted)
    by reflexivity.
  set (restarted := {| workers := <[id a := fresh]> (delete (id a) (workers sys));
                       heap := heap stopped1 ++ [newWorker a] |}).
  assert (H4 : step (Start a) deleted = (restarted, [(fresh, ImapConnect)])).
  { cbn [step]. unfold startWorkerForAccount. subst deleted. cbn [workers heap].
    rewrite lookup_delete_eq. cbn [connectAndListen newWorker shuttingDown].
    subst restarted stopped1 fresh. cbn [heap map]. rewrite length_insert. reflexivity. }
  assert (Hfinal : final
            = {| workers := delete (id a) (workers restarted); heap := heap restarted |}).
  { subst final interleaving.
    rewrite (proj1 (run_cons _ _ _)), H1, (proj1 (run_cons _ _ _)), H2,
      (proj1 (run_cons _ _ _)), H3, (proj1 (run_cons _ _ _)), H4.
    reflexivity. }
  split; [| split; [| split; [| split]]].
  - rewrite Hfinal. cbn [workers]. apply lookup_delete_eq.
  - rewrite Hfinal. subst restarted stopped1 fresh. cbn [heap].
    rewrite lookup_app_r by (rewrite length_insert; lia).
    rewrite length_insert, Nat.sub_diag. reflexivity.
  - subst fresh. lia.
  - subst interleaving.
    rewrite (proj2 (run_cons _ _ _)), H1, (proj2 (run_cons _ _ _)), H2,
      (proj2 (run_cons _ _ _)), H3, (proj2 (run_cons _ _ _)), H4.
    cbn [snd]. apply in_or_app. right. apply in_or_app. right. apply in_or_app. right.
    left. reflexivity.
  - rewrite Hfinal. unfold startWorkerForAccount. cbn [workers heap].
    rewrite lookup_delete_eq. cbn [connectAndListen newWorker shuttingDown fst workers].
    rewrite lookup_insert_eq. subst restarted stopped1 fresh. cbn [heap].
    rewrite length_app, length_insert. cbn [length]. f_equal. lia.
Qed.

Lemma overlapping_stops_strand_worker_witness :
  workers (fst (run [StopRequested 7; StopRequested 7; StopSettled 7 0 Rejected;
                     Start demo_account; StopSettled 7 0 (Resolved tt)]
                    (fst (run [Start demo_account] initial)))) !! 7 = None.
Proof.
  refine (proj1 (overlapping_stops_strand_worker [Start demo_account] demo_account 0
                   Rejected (Resolved tt) _)).
  reflexivity.
Defined.

End RegistryMore.

(** ** The indexed document *)

Module DocumentMore.
Import Js Effects MailParser ImapManager.

Lemma or_else_empty (a b : jsstring) : or_else a b = [] -> b = [].
Proof. unfold or_else. destruct a; [intros H; exact H | discriminate]. Qed.

(** X15: the document built for a fetched message keeps the raw text of the
    message, and its body text is empty only if that raw text is empty.
    When the parser fails, the body text is the raw text itself, the HTML
    body is empty, and the subject is that of the envelope. *)
Theorem document_keeps_text (acct : Z) (mailbox : jsstring) (msg : Fetched) :
  let doc := buildDoc acct mailbox msg in
  doc_raw doc = rawToText (source msg)
  /\ (doc_bodyText doc = [] -> doc_raw doc = [])
  /\ (parser_reply msg = Rejected ->
      doc_bodyText doc = doc_raw doc
      /\ doc_bodyHtml doc = []
      /\ doc_subject doc
         = match envelope msg with Some e => env_subject e | None => [] end).
Proof.
  cbn zeta. unfold buildDoc. cbn [doc_raw doc_bodyText doc_bodyHtml doc_subject].
  split; [reflexivity |]. split.
  - apply or_else_empty.
  - intros Hrej. rewrite Hrej. unfold parseRawEmail, rawToText.
    cbn [text html subject]. unfold or_else.
    destruct (source msg) as [b|]; cbn [truthy].
    + destruct (Utf8.decode b); repeat split;
        destruct (envelope msg) as [e|]; try reflexivity; destruct (env_subject e); reflexivity.
    + repeat split.
      destruct (envelope msg) as [e|]; try reflexivity; destruct (env_subject e); reflexivity.
Qed.

Lemma document_keeps_text_witness :
  doc_bodyText (buildDoc 7 (lit "INBOX")
                  (Examples.demo_message (lit "hello") Rejected Rejected))
  = doc_raw (buildDoc 7 (lit "INBOX")
               (Examples.demo_message (lit "hello") Rejected Rejected)).
Proof.
  refine (proj1 (proj2 (proj2 (document_keeps_text 7 (lit "INBOX") _)) _)).
  reflexivity.
Defined.

End DocumentMore.
